(** * Linear hashing set [ADS_set<Key, N>] of [ADS_set.h]

    A shallow embedding of the hash table of [ADS_set.h] and the
    verification of its lookup, counting, placement and split behaviour.

    Conventions of the embedding.
    - [size_type] values are integers of [Z] kept in [0, 2^64); every
      arithmetic operation of the source on them is followed by [wrap].
    - [1 << n] (an [int]) and [1u << n] (an [unsigned]) are 32-bit shifts;
      a shift count of 32 or more has no meaning in C++ and is a [fault].
    - An access outside an array, a read of a cell never written and a
      null [Slice] pointer are faults as well: the source gives them no
      behaviour.
    - [add] and [split] call each other; the embedding recurses on a fuel
      argument, and the lemmas show that a fuel of three is always enough.
    - [add], [split] and [insert] return, next to the new table, the number
      of times [split()] was entered during the call.  This counter is
      instrumentation; it is not a member of the class.
    - A member function of the class template whose body the language
      rejects once it is instantiated has no behaviour at all: every call
      of it is the fault [IllFormed]. *)

From stdpp Require Import base numbers list.

Open Scope Z_scope.

(** ** Faults and the result monad *)

Inductive fault : Set :=
| OutOfBounds     (* index outside the array it is applied to *)
| NullPointer     (* a bucket without a tail slice *)
| Uninitialised   (* read of a buffer cell that was never written *)
| BadShift        (* shift count not below the width of the operand *)
| OutOfFuel       (* the embedding ran out of recursion depth *)
| IllFormed.      (* a call whose instantiation the language rejects *)

Inductive result (A : Type) : Type :=
| Ok (a : A)
| Fault (e : fault).
Arguments Ok {A} a.
Arguments Fault {A} e.

#[global] Instance result_ret : MRet result := @Ok.
#[global] Instance result_bind : MBind result := λ A B f r,
  match r with
  | Ok a => f a
  | Fault e => Fault e
  end.

Definition of_option {A} (e : fault) (o : option A) : result A :=
  match o with
  | Some a => Ok a
  | None => Fault e
  end.

(** [for (size_type i {0}; i < count; ++i) body(i)], started at [i]. *)
Fixpoint for_loop {St : Type} (body : nat → St → result St)
    (i count : nat) (s : St) : result St :=
  match count with
  | O => Ok s
  | S count' => s' ← body i s; for_loop body (S i) count' s'
  end.

(** ** [std::swap] *)

(** Whether the type of an object is [const]-qualified. *)
Inductive cv : Set :=
| NonConst
| Const.

(** [std::swap(a, b)] on two objects of a type with qualification [q]:
    the exchange assigns to both, which a [const] object does not admit,
    so that no [std::swap] accepts the call. *)
Definition std_swap {A : Type} (q : cv) (a b : A) : result (A * A) :=
  match q with
  | NonConst => Ok (b, a)
  | Const => Fault IllFormed
  end.

(** ** Machine arithmetic *)

(** Arithmetic on [size_type] (64 bits, unsigned). *)
Definition wrap (z : Z) : Z := z mod 2 ^ 64.

(** [1 << n] on [int], converted to [size_type] as [%] does with its
    right operand. *)
Definition shl_int (n : Z) : result Z :=
  if bool_decide (n < 32) then
    let u := 2 ^ n mod 2 ^ 32 in
    Ok (wrap (if bool_decide (u < 2 ^ 31) then u else u - 2 ^ 32))
  else Fault BadShift.

(** [1u << n] on [unsigned]. *)
Definition shl_uint (n : Z) : result Z :=
  if bool_decide (n < 32) then Ok (2 ^ n mod 2 ^ 32) else Fault BadShift.

(** ** Buckets *)

Module Bucket.
Section Bucket.
(** Keys are compared with [std::equal_to<Key>]. *)
Context {Key : Type} `{EqDecision Key}.

(** The template parameter [N], the capacity of a slice. *)
Variable N : Z.

(** A [Slice] is the filled prefix [values[0 .. size)] of its array. *)
Definition Slice : Type := list Key.

(** The chain [head, head->next, ..., tail] and the member [size]. *)
Record t : Type := mk { slices : list Slice; size : Z }.

(** [Slice* head {new Slice}; Slice* tail {head}; size_type size {0};] *)
Definition new : t := {| slices := [[]]; size := 0 |}.

Definition tail (b : t) : result Slice := of_option NullPointer (last (slices b)).

(** The inner [for] of [locate]: the first [i] with [values[i] == key]. *)
Fixpoint locate_values (values : Slice) (key : Key) (i : nat) : option nat :=
  match values with
  | [] => None
  | v :: values' =>
      if decide (v = key) then Some i else locate_values values' key (S i)
  end.

(** The [while] of [locate]: slice number and position of the match. *)
Fixpoint locate_chain (chain : list Slice) (key : Key) (n : nat)
    : option (nat * nat) :=
  match chain with
  | [] => None
  | slice :: chain' =>
      match locate_values slice key 0 with
      | Some i => Some (n, i)
      | None => locate_chain chain' key (S n)
      end
  end.

Definition locate (b : t) (key : Key) : option (nat * nat) :=
  locate_chain (slices b) key 0.

(** What [add] does to the chain of slices. *)
Definition push (chain : list Slice) (slice : Slice) (key : Key)
    : result (list Slice * bool) :=
  let '(chain, slice, overflown) :=
    if bool_decide (N ≤ Z.of_nat (length slice))
    then (chain, [], true)
    else (removelast chain, slice, false) in
  if bool_decide (Z.of_nat (length slice) < N)
  then Ok (chain ++ [slice ++ [key]], overflown)
  else Fault OutOfBounds.

Definition add (b : t) (key : Key) : result (t * bool) :=
  slice ← tail b;
  '(chain, overflown) ← push (slices b) slice key;
  Ok ({| slices := chain; size := wrap (size b + 1) |}, overflown).

(** [copy] into a buffer of [capacity] cells: the cells written. *)
Definition copy (b : t) (capacity : Z) : result (list Key) :=
  let values := concat (slices b) in
  if bool_decide (Z.of_nat (length values) ≤ capacity)
  then Ok values
  else Fault OutOfBounds.

Definition clear (b : t) : t := {| slices := [[]]; size := 0 |}.

(** *** Specification-level view of a bucket *)

(** The keys a bucket holds, in the order [copy] writes them. *)
Definition keys (b : t) : list Key := concat (slices b).

(** [true] when the tail slice has no free cell: the next [add] overflows. *)
Definition full (b : t) : bool :=
  match last (slices b) with
  | Some slice => bool_decide (N ≤ Z.of_nat (length slice))
  | None => false
  end.

(** The chain after one more key, without the checks of [push]. *)
Definition pack_step (chain : list Slice) (key : Key) : list Slice :=
  match last chain with
  | Some slice =>
      if bool_decide (N ≤ Z.of_nat (length slice))
      then chain ++ [[key]]
      else removelast chain ++ [slice ++ [key]]
  | None => chain
  end.

(** The chain that [add] builds from a fresh bucket for a list of keys. *)
Definition pack (ks : list Key) : list Slice := foldl pack_step [[]] ks.

Definition put (b : t) (key : Key) : t :=
  {| slices := pack_step (slices b) key; size := size b + 1 |}.

(** A well-formed bucket: its chain is the one [add] builds for its keys,
    and [size] counts them. *)
Record wf (b : t) : Prop := {
  wf_slices : slices b = pack (keys b);
  wf_size : size b = Z.of_nat (length (keys b))
}.

End Bucket.
End Bucket.

(** ** The table *)

Module ADS_set.
Section Table.
Context {Key : Type} `{EqDecision Key}.

(** [std::hash<Key>]: the hash value of a key, a [size_type]. *)
Variable hash : Key → Z.

(** The template parameter [N], the capacity of a slice. *)
Variable N : Z.

Record t : Type := mk {
  split_round : Z;
  table_split_index : Z;
  table_size : Z;
  table_items_size : Z;
  table : list (@Bucket.t Key)
}.

Definition set_table (s : t) (tb : list (@Bucket.t Key)) : t :=
  {| split_round := split_round s;
     table_split_index := table_split_index s;
     table_size := table_size s;
     table_items_size := table_items_size s;
     table := tb |}.

Definition set_items (s : t) (n : Z) : t :=
  {| split_round := split_round s;
     table_split_index := table_split_index s;
     table_size := table_size s;
     table_items_size := n;
     table := table s |}.

(** [table[index]] *)
Definition table_at (s : t) (index : Z) : result (@Bucket.t Key) :=
  of_option OutOfBounds (table s !! Z.to_nat index).

(** [ADS_set() : split_round {1}, table_size {1u << split_round},
    table {new Bucket[table_size]} {}] *)
Definition new : result t :=
  let split_round := 1 in
  table_size ← shl_uint split_round;
  Ok {| split_round := split_round;
        table_split_index := 0;
        table_size := table_size;
        table_items_size := 0;
        table := replicate (Z.to_nat table_size) Bucket.new |}.

Definition h (s : t) (key : Key) : result Z :=
  m ← shl_int (split_round s);
  Ok (hash key mod m).

Definition g (s : t) (key : Key) : result Z :=
  m ← shl_int (wrap (split_round s + 1));
  Ok (hash key mod m).

Definition bucket_at (s : t) (key : Key) : result Z :=
  index ← h s key;
  if bool_decide (index < table_split_index s) then g s key else Ok index.

Definition locate (s : t) (key : Key) : result (option (nat * nat)) :=
  index ← bucket_at s key;
  b ← table_at s index;
  Ok (Bucket.locate b key).

Definition count (s : t) (key : Key) : result Z :=
  p ← locate s key;
  Ok (if p is Some _ then 1 else 0).

Definition size (s : t) : Z := table_items_size s.

Definition empty (s : t) : bool := bool_decide (table_items_size s = 0).

(** [copy(old_table, old_table_size, new_table)] *)
Definition copy (old_table : list (@Bucket.t Key)) (old_table_size : Z)
    (new_table : list (@Bucket.t Key)) : result (list (@Bucket.t Key)) :=
  for_loop (λ i new_table,
      b ← of_option OutOfBounds (old_table !! i);
      if bool_decide (i < length new_table)%nat
      then Ok (<[i := b]> new_table)
      else Fault OutOfBounds)
    0 (Z.to_nat old_table_size) new_table.

Definition reserve (s : t) (new_table_size : Z) : result t :=
  let new_table := replicate (Z.to_nat new_table_size) Bucket.new in
  new_table ← copy (table s) (table_size s) new_table;
  Ok {| split_round := split_round s;
        table_split_index := table_split_index s;
        table_size := new_table_size;
        table_items_size := table_items_size s;
        table := new_table |}.

(** Lines 274-291 of [split]: grow the array if the round needs it, move
    the keys of the bucket under the split pointer into [values], clear
    the bucket, subtract its size and advance the pointer. *)
Definition split_detach (s : t) : result (t * list Key * Z) :=
  lim ← shl_uint (split_round s);
  s ← (if bool_decide (table_size s = lim)
       then reserve s (wrap (table_size s * 2))
       else Ok s);
  to_split ← table_at s (table_split_index s);
  let to_split_size := Bucket.size to_split in
  values ← Bucket.copy to_split to_split_size;
  let s := set_table s
    (<[Z.to_nat (table_split_index s) := Bucket.clear to_split]> (table s)) in
  let s := set_items s (wrap (table_items_size s - to_split_size)) in
  lim ← shl_uint (split_round s);
  let s :=
    if bool_decide (lim ≤ table_split_index s)
    then {| split_round := wrap (split_round s + 1);
            table_split_index := 0;
            table_size := table_size s;
            table_items_size := table_items_size s;
            table := table s |}
    else {| split_round := split_round s;
            table_split_index := wrap (table_split_index s + 1);
            table_size := table_size s;
            table_items_size := table_items_size s;
            table := table s |} in
  Ok (s, values, to_split_size).

(** Lines 303-305 of [add]: [table[bucket_at(key)].add(key)]. *)
Definition add_to_bucket (s : t) (key : Key) : result (t * bool) :=
  index ← bucket_at s key;
  b ← table_at s index;
  '(b, overflown) ← Bucket.add N b key;
  Ok (set_table s (<[Z.to_nat index := b]> (table s)), overflown).

(** Lines 293-295 of [split], over the [add] it is given. *)
Definition split_reinsert (add : Key → t → result (t * nat))
    (values : list Key) (to_split_size : Z) (s : t) : result (t * nat) :=
  for_loop (λ i '(s, n),
      key ← of_option Uninitialised (values !! i);
      '(s, m) ← add key s;
      Ok (s, (n + m)%nat))
    0 (Z.to_nat to_split_size) (s, 0%nat).

Fixpoint add (fuel : nat) (key : Key) (overflowable : bool) (s : t)
    : result (t * nat) :=
  match fuel with
  | O => Fault OutOfFuel
  | S fuel =>
      c ← count s key;
      if bool_decide (c ≠ 0) then Ok (s, 0%nat) else
      '(s, overflown) ← add_to_bucket s key;
      '(s, n) ← (if overflowable && overflown
                 then split fuel s
                 else Ok (s, 0%nat));
      Ok (set_items s (wrap (table_items_size s + 1)), n)
  end
with split (fuel : nat) (s : t) : result (t * nat) :=
  match fuel with
  | O => Fault OutOfFuel
  | S fuel =>
      '(s, values, to_split_size) ← split_detach s;
      '(s, n) ← split_reinsert (λ key, add fuel key false)
                  values to_split_size s;
      Ok (s, S n)
  end.

(** [insert(first, last)] over the keys of the range. *)
Fixpoint insert (fuel : nat) (keys : list Key) (s : t) : result (t * nat) :=
  match keys with
  | [] => Ok (s, 0%nat)
  | key :: keys =>
      '(s, n) ← add fuel key true s;
      '(s, m) ← insert fuel keys s;
      Ok (s, (n + m)%nat)
  end.

(** [ADS_set(std::initializer_list<key_type> ilist)] *)
Definition from_list (fuel : nat) (ilist : list Key) : result (t * nat) :=
  s ← new;
  insert fuel ilist s.

(** Lines 351-355 of [swap]: the exchange of the five data members; the
    members of [this] and of [other] afterwards. *)
Definition swap_data (s other : t) : result (t * t) :=
  '(tb, other_tb) ← std_swap NonConst (table s) (table other);
  '(r, other_r) ← std_swap NonConst (split_round s) (split_round other);
  '(i, other_i) ←
    std_swap NonConst (table_split_index s) (table_split_index other);
  '(z, other_z) ← std_swap NonConst (table_size s) (table_size other);
  '(n, other_n) ←
    std_swap NonConst (table_items_size s) (table_items_size other);
  Ok ({| split_round := r;
         table_split_index := i;
         table_size := z;
         table_items_size := n;
         table := tb |},
      {| split_round := other_r;
         table_split_index := other_i;
         table_size := other_z;
         table_items_size := other_n;
         table := other_tb |}).

(** [swap]: lines 351-355, then [std::swap(hash, other.hash)] on the
    member declared [const hasher hash {}]. *)
Definition swap (s other : t) : result (t * t) :=
  '(s, other) ← swap_data s other;
  _ ← std_swap Const hash hash;
  Ok (s, other).

(** [clear() { ADS_set tmp; swap(tmp); }] *)
Definition clear (s : t) : result t :=
  tmp ← new;
  '(s, _) ← swap s tmp;
  Ok s.

(** *** Specification-level view of the table *)

(** The indexing rule in the words of the specification: [hash mod 2^d],
    replaced by [hash mod 2^(d+1)] below the split pointer. *)
Definition index_rule (s : t) (key : Key) : Z :=
  let index := hash key mod 2 ^ split_round s in
  if bool_decide (index < table_split_index s)
  then hash key mod 2 ^ (split_round s + 1)
  else index.

(** All keys of the table, bucket after bucket. *)
Definition stored (s : t) : list Key := concat (Bucket.keys <$> table s).

Definition nkeys (s : t) : Z := Z.of_nat (length (stored s)).

(** The table after lines 303-305 of [add], for a key that is not stored. *)
Definition put (s : t) (key : Key) : t :=
  let i := Z.to_nat (index_rule s key) in
  match table s !! i with
  | Some b => set_table s (<[i := Bucket.put N b key]> (table s))
  | None => s
  end.

(** [put] followed by [++table_items_size]. *)
Definition store (s : t) (key : Key) : t :=
  let s' := put s key in set_items s' (wrap (table_items_size s' + 1)).

(** [true] when the bucket of [key] overflows at the next [add]. *)
Definition full_at (s : t) (key : Key) : bool :=
  match table s !! Z.to_nat (index_rule s key) with
  | Some b => Bucket.full N b
  | None => false
  end.

(** Splits made so far, up to a constant: each split adds one. *)
Definition potential (s : t) : Z :=
  2 ^ split_round s + split_round s + table_split_index s.

(** The structural invariant; it holds between the statements of [add]
    and of [split] as well, where [table_items_size] is behind. *)
Record wf (s : t) : Prop := {
  wf_round : 1 ≤ split_round s;
  wf_index : 0 ≤ table_split_index s ≤ 2 ^ split_round s;
  wf_size :
    table_size s =
      if bool_decide (table_split_index s = 0)
      then 2 ^ split_round s else 2 ^ (split_round s + 1);
  wf_length : Z.of_nat (length (table s)) = table_size s;
  wf_buckets : ∀ i b, table s !! i = Some b → Bucket.wf N b;
  wf_placed : ∀ i b key,
    table s !! i = Some b → key ∈ Bucket.keys b →
    index_rule s key = Z.of_nat i;
  wf_nodup : NoDup (stored s)
}.

(** The table after lines 274-291 of [split], for a well-formed table:
    the array has the [2^(d+1)] buckets of the round, the bucket under the
    split pointer is empty and the pointer has moved on. *)
Definition detached (s : t) : t :=
  let r := split_round s in
  let i := table_split_index s in
  let b := default Bucket.new (table s !! Z.to_nat i) in
  let fresh := (Z.to_nat (2 ^ (r + 1)) - length (table s))%nat in
  {| split_round := if bool_decide (2 ^ r ≤ i) then r + 1 else r;
     table_split_index := if bool_decide (2 ^ r ≤ i) then 0 else i + 1;
     table_size := 2 ^ (r + 1);
     table_items_size := wrap (table_items_size s - Bucket.size b);
     table :=
       <[Z.to_nat i := Bucket.clear b]>
         (table s ++ replicate fresh Bucket.new) |}.

(** The keys [split] takes out of the bucket under the split pointer. *)
Definition split_values (s : t) : list Key :=
  Bucket.keys (default Bucket.new (table s !! Z.to_nat (table_split_index s))).

(** The table after [split]. *)
Definition resplit (s : t) : t := foldl store (detached s) (split_values s).

(** The table after [add(key)] with [overflowable = true]. *)
Definition added (s : t) (key : Key) : t :=
  if bool_decide (key ∈ stored s) then s
  else if full_at s key
  then let s' := resplit (put s key) in
       set_items s' (wrap (table_items_size s' + 1))
  else store s key.

(** The table [ADS_set()] builds. *)
Definition initial : t :=
  {| split_round := 1;
     table_split_index := 0;
     table_size := 2;
     table_items_size := 0;
     table := [Bucket.new; Bucket.new] |}.

(** The table after the insertion of a list of keys into [s]. *)
Definition inserted (s : t) (keys : list Key) : t := foldl added s keys.



(** The invariant of the table between two public calls. *)
Record Inv (s : t) : Prop := {
  inv_wf : wf s;
  inv_items : table_items_size s = nkeys s;
  inv_potential : potential s ≤ 3 + nkeys s
}.

(** The number of keys up to which every shift of the source is defined
    and no counter wraps. *)
Definition max_keys : Z := 2 ^ 30 - 4.

End Table.
End ADS_set.


(** ** The instance of the scenarios *)

(** [std::hash<int>] as libstdc++ and libc++ define it: the value itself,
    converted to [size_t]. *)
Definition int_hash (k : Z) : Z := wrap k.

(** The table after the keys 0, 2, 4, 6, 8: all of them in bucket 0, which
    is under the split pointer and full. *)
Definition one_bucket_table : @ADS_set.t Z :=
  ADS_set.inserted int_hash 5 ADS_set.initial [0; 2; 4; 6; 8].

(** The table after the keys 0, 2, 4, 6, 8, 10, 12, 16, 20, 14, 18: round 1
    with the split pointer at 2, and bucket 2 full. *)
Definition round_end_table : @ADS_set.t Z :=
  ADS_set.inserted int_hash 5 ADS_set.initial
    [0; 2; 4; 6; 8; 10; 12; 16; 20; 14; 18].

(** ** Repeated [Bucket::add] *)

(** [for (key : keys) b.add(key);] as a caller of the bucket writes it:
    the bucket after the calls. *)
Fixpoint bucket_add_all {Key : Type} (N : Z) (b : @Bucket.t Key)
    (keys : list Key) : result (@Bucket.t Key) :=
  match keys with
  | [] => Ok b
  | key :: keys =>
      '(b, _) ← Bucket.add N b key;
      bucket_add_all N b keys
  end.

(** * Machine arithmetic: facts *)

Lemma wrap_small z : 0 ≤ z < 2 ^ 64 → wrap z = z.
Proof. intros Hz. unfold wrap. by apply Z.mod_small. Qed.

Lemma pow2_pos n : 0 ≤ n → 0 < 2 ^ n.
Proof. intros. by apply Z.pow_pos_nonneg. Qed.

Lemma pow2_mono n m : 0 ≤ n ≤ m → 2 ^ n ≤ 2 ^ m.
Proof. intros. apply Z.pow_le_mono_r; lia. Qed.

Lemma pow2_succ n : 0 ≤ n → 2 ^ (n + 1) = 2 * 2 ^ n.
Proof. intros. by rewrite Z.pow_add_r, Z.pow_1_r, Z.mul_comm. Qed.

Lemma shl_uint_pow n : 0 ≤ n ≤ 31 → shl_uint n = Ok (2 ^ n).
Proof.
  intros Hn. unfold shl_uint. rewrite bool_decide_eq_true_2; [|lia].
  f_equal. apply Z.mod_small.
  pose proof (pow2_pos n). pose proof (pow2_mono n 31). lia.
Qed.

Lemma shl_int_pow n : 0 ≤ n ≤ 30 → shl_int n = Ok (2 ^ n).
Proof.
  intros Hn. unfold shl_int. rewrite bool_decide_eq_true_2; [|lia].
  pose proof (pow2_pos n). pose proof (pow2_mono n 30).
  rewrite (Z.mod_small (2 ^ n)); [|lia].
  rewrite bool_decide_eq_true_2; [|lia].
  f_equal. apply wrap_small. lia.
Qed.

(** A potential below [2^30] keeps the round below 30. *)
Lemma potential_round r i : 1 ≤ r → 0 ≤ i → 2 ^ r + r + i ≤ 2 ^ 30 → r ≤ 29.
Proof.
  intros Hr Hi Hp. destruct (decide (r ≤ 29)) as [|Hgt]; [done|].
  pose proof (pow2_mono 30 r). lia.
Qed.

(** * Buckets: facts *)

Section BucketFacts.
Context {Key : Type} `{EqDecision Key}.
Variable N : Z.
Hypothesis N_pos : 0 < N.

Local Abbreviation bucket := (@Bucket.t Key).

Lemma locate_values_None (values : list Key) key i :
  Bucket.locate_values values key i = None ↔ key ∉ values.
Proof.
  revert i. induction values as [|v values IH]; intros i; simpl.
  - split; [intros _; apply not_elem_of_nil | done].
  - rewrite not_elem_of_cons. destruct (decide (v = key)) as [->|Hne].
    + split; [done | intros [? _]; done].
    + rewrite IH. split; [by split | by intros [_ ?]].
Qed.

Lemma locate_chain_None (chain : list (list Key)) key n :
  Bucket.locate_chain chain key n = None ↔ key ∉ concat chain.
Proof.
  revert n. induction chain as [|slice chain IH]; intros n; simpl.
  - split; [intros _; apply not_elem_of_nil | done].
  - rewrite not_elem_of_app.
    destruct (Bucket.locate_values slice key 0) as [i|] eqn:Hv.
    + split; [done|]. intros [Hs _].
      pose proof (proj2 (locate_values_None slice key 0) Hs). congruence.
    + pose proof (proj1 (locate_values_None slice key 0) Hv).
      rewrite IH. split; [by split | by intros [_ ?]].
Qed.

Lemma locate_None (b : bucket) key :
  Bucket.locate b key = None ↔ key ∉ Bucket.keys b.
Proof. apply locate_chain_None. Qed.

Lemma pack_step_snoc (chain : list (list Key)) slice key :
  Bucket.pack_step N (chain ++ [slice]) key =
    if bool_decide (N ≤ Z.of_nat (length slice))
    then chain ++ [slice; [key]]
    else chain ++ [slice ++ [key]].
Proof.
  unfold Bucket.pack_step. rewrite last_snoc, removelast_last.
  case_bool_decide; [|done]. by rewrite <- app_assoc.
Qed.

Lemma pack_step_last (chain : list (list Key)) key :
  is_Some (last chain) → is_Some (last (Bucket.pack_step N chain key)).
Proof.
  intros [slice Hl]. apply last_Some in Hl as [chain' ->].
  rewrite pack_step_snoc. case_bool_decide.
  - change (chain' ++ [slice; [key]]) with (chain' ++ [slice] ++ [[key]]).
    rewrite app_assoc, last_snoc. eauto.
  - rewrite last_snoc. eauto.
Qed.

Lemma pack_step_concat (chain : list (list Key)) key :
  is_Some (last chain) →
  concat (Bucket.pack_step N chain key) = concat chain ++ [key].
Proof.
  intros [slice Hl]. apply last_Some in Hl as [chain' ->].
  rewrite pack_step_snoc. case_bool_decide.
  - rewrite !concat_app. simpl. by rewrite !app_nil_r, <- app_assoc.
  - rewrite !concat_app. simpl. by rewrite !app_nil_r, <- app_assoc.
Qed.

Lemma pack_snoc (ks : list Key) k :
  Bucket.pack N (ks ++ [k]) = Bucket.pack_step N (Bucket.pack N ks) k.
Proof. unfold Bucket.pack. by rewrite foldl_app. Qed.

Lemma pack_last (ks : list Key) : is_Some (last (Bucket.pack N ks)).
Proof.
  induction ks as [|k ks IH] using rev_ind; [by eexists|].
  rewrite pack_snoc. by apply pack_step_last.
Qed.

Lemma pack_concat (ks : list Key) : concat (Bucket.pack N ks) = ks.
Proof.
  induction ks as [|k ks IH] using rev_ind; [done|].
  rewrite pack_snoc, pack_step_concat by apply pack_last. by rewrite IH.
Qed.

(** Up to [N] keys fit in the head slice. *)
Lemma pack_short (ks : list Key) :
  Z.of_nat (length ks) ≤ N → Bucket.pack N ks = [ks].
Proof.
  induction ks as [|k ks IH] using rev_ind; [done|].
  rewrite length_app. simpl. intros Hlen.
  rewrite pack_snoc, IH by lia.
  change [ks] with ([] ++ [ks]).
  rewrite pack_step_snoc. rewrite bool_decide_eq_false_2; [done|lia].
Qed.

Lemma wf_last (b : bucket) : Bucket.wf N b → is_Some (last (Bucket.slices b)).
Proof. intros [Hs _]. rewrite Hs. apply pack_last. Qed.

Lemma keys_put (b : bucket) key :
  Bucket.wf N b → Bucket.keys (Bucket.put N b key) = Bucket.keys b ++ [key].
Proof. intros Hb. apply pack_step_concat. by apply wf_last. Qed.

Lemma wf_put (b : bucket) key :
  Bucket.wf N b → Bucket.wf N (Bucket.put N b key).
Proof.
  intros Hb. split.
  - rewrite keys_put by done. rewrite pack_snoc.
    simpl. by rewrite <- (Bucket.wf_slices N b Hb).
  - rewrite keys_put by done. rewrite length_app. simpl.
    rewrite (Bucket.wf_size N b Hb). lia.
Qed.

Lemma wf_new : Bucket.wf N (@Bucket.new Key).
Proof. by split. Qed.

Lemma wf_clear (b : bucket) : Bucket.wf N (Bucket.clear b).
Proof. by split. Qed.

(** [add] on a well-formed bucket: it never faults, appends the key and
    reports whether the tail slice was full. *)
Lemma add_spec (b : bucket) key :
  Bucket.wf N b → Z.of_nat (length (Bucket.keys b)) + 1 < 2 ^ 64 →
  Bucket.add N b key = Ok (Bucket.put N b key, Bucket.full N b).
Proof.
  intros Hb Hlen. pose proof (wf_last b Hb) as [slice Hl].
  unfold Bucket.add, Bucket.tail, Bucket.put, Bucket.full, Bucket.pack_step.
  rewrite Hl. simpl. unfold Bucket.push.
  rewrite (Bucket.wf_size N b Hb), wrap_small by lia.
  case_bool_decide; simpl.
  - rewrite bool_decide_eq_true_2 by lia. done.
  - rewrite bool_decide_eq_true_2 by lia. done.
Qed.

Lemma copy_spec (b : bucket) :
  Bucket.wf N b → Bucket.copy b (Bucket.size b) = Ok (Bucket.keys b).
Proof.
  intros Hb. unfold Bucket.copy. fold (Bucket.keys b).
  rewrite (Bucket.wf_size N b Hb). by rewrite bool_decide_eq_true_2.
Qed.

(** A bucket that is about to overflow holds at least [N] keys. *)
Lemma full_length (b : bucket) :
  Bucket.full N b = true → N ≤ Z.of_nat (length (Bucket.keys b)).
Proof.
  unfold Bucket.full, Bucket.keys.
  destruct (last (Bucket.slices b)) as [slice|] eqn:Hl; [|done].
  intros Hf%bool_decide_eq_true. apply last_Some in Hl as [chain ->].
  rewrite concat_app, length_app. simpl. rewrite app_nil_r. lia.
Qed.

(** Putting the keys of a bucket back, in order, into the cleared bucket
    rebuilds the bucket. *)
Lemma foldl_put_new (ks : list Key) :
  foldl (Bucket.put N) Bucket.new ks =
    {| Bucket.slices := Bucket.pack N ks;
       Bucket.size := Z.of_nat (length ks) |}.
Proof.
  induction ks as [|k ks IH] using rev_ind; [done|].
  rewrite foldl_app. simpl. rewrite IH. unfold Bucket.put. simpl.
  rewrite pack_snoc, length_app. simpl. f_equal. lia.
Qed.

Lemma foldl_put_clear (b : bucket) :
  Bucket.wf N b → foldl (Bucket.put N) (Bucket.clear b) (Bucket.keys b) = b.
Proof.
  intros [Hs Hz]. change (Bucket.clear b) with (@Bucket.new Key).
  rewrite foldl_put_new. destruct b as [sl sz].
  unfold Bucket.keys in *. simpl in *. congruence.
Qed.

End BucketFacts.

(** * The table: facts *)

Lemma elem_of_concat {A} (x : A) (ls : list (list A)) :
  x ∈ concat ls ↔ ∃ l, l ∈ ls ∧ x ∈ l.
Proof.
  induction ls as [|l ls IH]; simpl.
  - split; [by intros ?%elem_of_nil | by intros (? & ?%elem_of_nil & _)].
  - rewrite elem_of_app, IH. split.
    + intros [Hx | (l' & Hl' & Hx)].
      * exists l. split; [apply list_elem_of_here | done].
      * exists l'. split; [by apply list_elem_of_further | done].
    + intros (l' & [-> | Hl']%elem_of_cons & Hx); [by left|].
      right. by exists l'.
Qed.

Lemma concat_replicate_nil {A} n : concat (replicate n (@nil A)) = [].
Proof. induction n; [done|]. done. Qed.

Lemma wrap_add_l a b : wrap (wrap a + b) = wrap (a + b).
Proof. unfold wrap. by rewrite Zplus_mod_idemp_l. Qed.

(** For [p > 0], [x mod 2p] is [x mod p] or [x mod p + p]. *)
Lemma mod_double x p :
  0 < p → x mod (2 * p) = x mod p ∨ x mod (2 * p) = x mod p + p.
Proof.
  intros Hp. rewrite (Z.mul_comm 2 p), Z.rem_mul_r by lia.
  assert ((x / p) mod 2 = 0 ∨ (x / p) mod 2 = 1) as [-> | ->]
    by (pose proof (Z.mod_pos_bound (x / p) 2); lia); lia.
Qed.

Section TableFacts.
Context {Key : Type} `{EqDecision Key}.
Variable hash : Key → Z.
Variable N : Z.
Hypothesis N_pos : 0 < N.

Import ADS_set.

Local Abbreviation state := (@ADS_set.t Key).
Local Abbreviation bkeys := (@Bucket.keys Key).

(** ** The indexing rule *)

Lemma index_rule_range (s : state) key :
  wf hash N s → 0 ≤ index_rule hash s key < table_size s.
Proof.
  intros Hs. pose proof (wf_round _ _ _ Hs). pose proof (wf_index _ _ _ Hs).
  pose proof (pow2_pos (split_round s)). pose proof (pow2_succ (split_round s)).
  pose proof (Z.mod_pos_bound (hash key) (2 ^ split_round s)).
  pose proof (Z.mod_pos_bound (hash key) (2 ^ (split_round s + 1))).
  rewrite (wf_size _ _ _ Hs). unfold index_rule. cbv zeta.
  repeat case_bool_decide. all: lia.
Qed.

(** [bucket_at] computes the indexing rule while the shifts are defined. *)
Lemma bucket_at_rule (s : state) key :
  1 ≤ split_round s ≤ 29 → bucket_at hash s key = Ok (index_rule hash s key).
Proof.
  intros Hr. unfold bucket_at, h, g, index_rule.
  rewrite (wrap_small (split_round s + 1)) by lia.
  rewrite !shl_int_pow by lia. simpl.
  by case_bool_decide.
Qed.

Lemma lookup_index_rule (s : state) key :
  wf hash N s → is_Some (table s !! Z.to_nat (index_rule hash s key)).
Proof.
  intros Hs. apply lookup_lt_is_Some.
  pose proof (index_rule_range s key Hs). pose proof (wf_length _ _ _ Hs). lia.
Qed.

(** ** Stored keys *)

Lemma elem_of_stored (s : state) key :
  key ∈ stored s ↔ ∃ i b, table s !! i = Some b ∧ key ∈ bkeys b.
Proof.
  unfold stored. rewrite elem_of_concat. split.
  - intros (l & (b & -> & Hb)%list_elem_of_fmap & Hk).
    apply list_elem_of_lookup in Hb as [i Hi]. eauto.
  - intros (i & b & Hi & Hk). exists (bkeys b). split; [|done].
    apply list_elem_of_fmap. exists b. split; [done|].
    by eapply list_elem_of_lookup_2.
Qed.

(** A stored key is in the bucket the rule names, and nowhere else. *)
Lemma elem_of_stored_rule (s : state) key b :
  wf hash N s → table s !! Z.to_nat (index_rule hash s key) = Some b →
  key ∈ stored s ↔ key ∈ bkeys b.
Proof.
  intros Hs Hb. rewrite elem_of_stored. split.
  - intros (i & b' & Hi & Hk).
    rewrite (wf_placed _ _ _ Hs i b' key Hi Hk), Nat2Z.id in Hb. congruence.
  - intros Hk. eauto.
Qed.

Lemma stored_middle (tb : list (@Bucket.t Key)) i b :
  tb !! i = Some b →
  concat (bkeys <$> tb) =
    concat (bkeys <$> take i tb) ++ bkeys b ++ concat (bkeys <$> drop (S i) tb).
Proof.
  intros Hi. rewrite <- (take_drop_middle tb i b Hi) at 1.
  by rewrite fmap_app, concat_app, fmap_cons.
Qed.

Lemma stored_insert (tb : list (@Bucket.t Key)) i b b' :
  tb !! i = Some b →
  bkeys b ++ concat (bkeys <$> <[i := b']> tb) ≡ₚ
    bkeys b' ++ concat (bkeys <$> tb).
Proof.
  intros Hi. rewrite (stored_middle tb i b Hi).
  rewrite insert_take_drop by (by eapply lookup_lt_Some).
  rewrite fmap_app, concat_app, fmap_cons. simpl.
  rewrite (Permutation_app_swap_app (bkeys b)).
  rewrite (Permutation_app_swap_app (bkeys b) (bkeys b')).
  apply Permutation_app_swap_app.
Qed.

Lemma keys_le_nkeys (s : state) i b :
  table s !! i = Some b → Z.of_nat (length (bkeys b)) ≤ nkeys s.
Proof.
  intros Hi. unfold nkeys, stored. rewrite (stored_middle _ i b Hi).
  rewrite !length_app. lia.
Qed.

(** ** [count] *)

Lemma count_spec (s : state) key :
  wf hash N s → split_round s ≤ 29 →
  count hash s key = Ok (if bool_decide (key ∈ stored s) then 1 else 0).
Proof.
  intros Hs Hr. pose proof (wf_round _ _ _ Hs).
  destruct (lookup_index_rule s key Hs) as [b Hb].
  unfold count, locate, table_at. rewrite bucket_at_rule by lia. simpl.
  rewrite Hb. simpl.
  rewrite (bool_decide_ext _ _ (elem_of_stored_rule s key b Hs Hb)).
  destruct (Bucket.locate b key) as [p|] eqn:Hl.
  - rewrite bool_decide_eq_true_2; [done|].
    destruct (decide (key ∈ bkeys b)) as [|Hn]; [done|].
    apply locate_None in Hn. congruence.
  - apply locate_None in Hl. by rewrite bool_decide_eq_false_2.
Qed.

(** ** Tables that differ in the array only *)

Lemma wf_set_table (s : state) tb :
  wf hash N s → length tb = length (table s) →
  (∀ i b, tb !! i = Some b → Bucket.wf N b) →
  (∀ i b key, tb !! i = Some b → key ∈ bkeys b →
     index_rule hash s key = Z.of_nat i) →
  NoDup (concat (bkeys <$> tb)) →
  wf hash N (set_table s tb).
Proof.
  intros Hs Hlen Hb Hp Hn. split; simpl; try apply Hs; try done.
  rewrite Hlen. apply Hs.
Qed.

Lemma put_lookup (s : state) key b :
  table s !! Z.to_nat (index_rule hash s key) = Some b →
  put hash N s key =
    set_table s
      (<[Z.to_nat (index_rule hash s key) := Bucket.put N b key]> (table s)).
Proof. intros Hb. unfold put. by rewrite Hb. Qed.

Lemma stored_put (s : state) key :
  wf hash N s → stored (put hash N s key) ≡ₚ key :: stored s.
Proof.
  intros Hs. destruct (lookup_index_rule s key Hs) as [b Hb].
  rewrite (put_lookup s key b Hb). unfold stored. simpl.
  apply (Permutation_app_inv_l (bkeys b)).
  rewrite (stored_insert _ _ b _ Hb).
  rewrite (keys_put N b key) by (by eapply wf_buckets).
  by rewrite <- app_assoc.
Qed.

Lemma nkeys_put (s : state) key :
  wf hash N s → nkeys (put hash N s key) = nkeys s + 1.
Proof.
  intros Hs. unfold nkeys. rewrite (stored_put s key Hs). simpl. lia.
Qed.

Lemma wf_put_table (s : state) key :
  wf hash N s → key ∉ stored s → wf hash N (put hash N s key).
Proof.
  intros Hs Hk. pose proof (stored_put s key Hs) as Hperm.
  destruct (lookup_index_rule s key Hs) as [b Hb].
  rewrite (put_lookup s key b Hb) in *.
  apply wf_set_table; [done | by rewrite length_insert | | | ].
  - intros i b' [(<- & <- & _) | (_ & Hi)]%list_lookup_insert_Some.
    + apply wf_put. by eapply wf_buckets.
    + by eapply wf_buckets.
  - intros i b' key' [(<- & <- & _) | (_ & Hi)]%list_lookup_insert_Some Hin.
    + rewrite (keys_put N b key) in Hin by (by eapply wf_buckets).
      apply elem_of_app in Hin as [Hin | ->%list_elem_of_singleton].
      * by eapply wf_placed.
      * pose proof (index_rule_range s key Hs). lia.
    + by eapply wf_placed.
  - unfold stored in Hperm. simpl in Hperm. rewrite Hperm.
    apply NoDup_cons. split; [done | apply Hs].
Qed.

Lemma put_fields (s : state) key :
  split_round (put hash N s key) = split_round s ∧
  table_split_index (put hash N s key) = table_split_index s ∧
  table_size (put hash N s key) = table_size s ∧
  table_items_size (put hash N s key) = table_items_size s.
Proof. unfold put. by destruct (table s !! _). Qed.

Lemma wf_set_items (s : state) n : wf hash N s → wf hash N (set_items s n).
Proof. intros Hs. split; simpl; apply Hs. Qed.

(** ** [store]: the insertion that does not split *)

Lemma stored_store (s : state) key :
  stored (store hash N s key) = stored (put hash N s key).
Proof. done. Qed.

Lemma wf_store (s : state) key :
  wf hash N s → key ∉ stored s → wf hash N (store hash N s key).
Proof.
  intros Hs Hk. pose proof (wf_put_table s key Hs Hk) as Hp.
  split; simpl; try apply Hp.
Qed.

Lemma store_fields (s : state) key :
  split_round (store hash N s key) = split_round s ∧
  table_split_index (store hash N s key) = table_split_index s ∧
  table_size (store hash N s key) = table_size s ∧
  table_items_size (store hash N s key) = wrap (table_items_size s + 1).
Proof.
  unfold store. simpl. pose proof (put_fields s key) as (-> & -> & -> & ->).
  done.
Qed.

Lemma add_to_bucket_spec (s : state) key :
  wf hash N s → split_round s ≤ 29 → nkeys s + 1 < 2 ^ 64 →
  add_to_bucket hash N s key = Ok (put hash N s key, full_at hash N s key).
Proof.
  intros Hs Hr Hn. pose proof (wf_round _ _ _ Hs).
  destruct (lookup_index_rule s key Hs) as [b Hb].
  unfold add_to_bucket, table_at. rewrite bucket_at_rule by lia. simpl.
  rewrite Hb. simpl. rewrite (add_spec N N_pos b key).
  - simpl. unfold full_at. rewrite Hb. by rewrite (put_lookup s key b Hb).
  - by eapply wf_buckets.
  - pose proof (keys_le_nkeys s _ b Hb). lia.
Qed.

(** [add] of a key the table holds changes nothing. *)
Lemma add_present (s : state) fuel key overflowable :
  wf hash N s → split_round s ≤ 29 → key ∈ stored s →
  add hash N (S fuel) key overflowable s = Ok (s, 0%nat).
Proof.
  intros Hs Hr Hk. simpl. rewrite count_spec by done.
  by rewrite bool_decide_eq_true_2 by done.
Qed.

(** [add] of a new key, when [split] is not called. *)
Lemma add_quiet (s : state) fuel key overflowable :
  wf hash N s → split_round s ≤ 29 → nkeys s + 1 < 2 ^ 64 →
  key ∉ stored s → overflowable && full_at hash N s key = false →
  add hash N (S fuel) key overflowable s = Ok (store hash N s key, 0%nat).
Proof.
  intros Hs Hr Hn Hk Hov. simpl. rewrite count_spec by done.
  rewrite bool_decide_eq_false_2 by done. simpl.
  rewrite add_to_bucket_spec by done. simpl. by rewrite Hov.
Qed.

(** [add] of a new key into a bucket whose tail slice is full. *)
Lemma add_overflow (s : state) fuel key :
  wf hash N s → split_round s ≤ 29 → nkeys s + 1 < 2 ^ 64 →
  key ∉ stored s → full_at hash N s key = true →
  add hash N (S fuel) key true s =
    '(s', n) ← split hash N fuel (put hash N s key);
    Ok (set_items s' (wrap (table_items_size s' + 1)), n).
Proof.
  intros Hs Hr Hn Hk Hov. simpl. rewrite count_spec by done.
  rewrite bool_decide_eq_false_2 by done. simpl.
  rewrite add_to_bucket_spec by done. simpl. by rewrite Hov.
Qed.

(** ** The re-insertion loop of [split] *)

Lemma foldl_store_spec (values : list Key) (s : state) :
  wf hash N s → NoDup (values ++ stored s) →
  wf hash N (foldl (store hash N) s values) ∧
  stored (foldl (store hash N) s values) ≡ₚ values ++ stored s ∧
  split_round (foldl (store hash N) s values) = split_round s ∧
  table_split_index (foldl (store hash N) s values) = table_split_index s ∧
  table_size (foldl (store hash N) s values) = table_size s ∧
  wrap (table_items_size (foldl (store hash N) s values)) =
    wrap (table_items_size s + Z.of_nat (length values)).
Proof.
  revert s. induction values as [|a values IH]; intros s Hs Hnd; simpl.
  - split_and!; try done. by rewrite Z.add_0_r.
  - apply NoDup_cons in Hnd as [Hav Hnd].
    pose proof Hav as [_ Ha]%not_elem_of_app.
    pose proof (wf_store s a Hs Ha) as Hs'.
    pose proof (stored_put s a Hs) as Hperm. rewrite <- stored_store in Hperm.
    pose proof (store_fields s a) as (Hr & Hi & Hz & Hit).
    destruct (IH (store hash N s a) Hs') as (Hwf & Hst & -> & -> & -> & ->).
    { rewrite Hperm, <- Permutation_middle. by apply NoDup_cons. }
    split_and!; try done.
    + rewrite Hst, Hperm. by rewrite <- Permutation_middle.
    + rewrite Hit, wrap_add_l. f_equal. lia.
Qed.

Lemma reinsert_loop fuel (values : list Key) suf :
  ∀ pre rest (s : state) n,
  values = pre ++ suf ++ rest → wf hash N s → split_round s ≤ 29 →
  NoDup (suf ++ stored s) → nkeys s + Z.of_nat (length suf) < 2 ^ 64 →
  for_loop (λ i '(s, n),
      key ← of_option Uninitialised (values !! i);
      '(s, m) ← add hash N (S fuel) key false s;
      Ok (s, (n + m)%nat))
    (length pre) (length suf) (s, n) =
  Ok (foldl (store hash N) s suf, n).
Proof.
  induction suf as [|a suf IH]; intros pre rest s n Hv Hs Hr Hnd Hn; [done|].
  apply NoDup_cons in Hnd as [Hav Hnd].
  pose proof Hav as [_ Ha]%not_elem_of_app.
  pose proof (wf_store s a Hs Ha) as Hs'.
  pose proof (stored_put s a Hs) as Hperm. rewrite <- stored_store in Hperm.
  pose proof (store_fields s a) as (Hr' & _).
  assert (values !! length pre = Some a) as Hl
    by (rewrite Hv; by apply list_lookup_middle).
  simpl in Hn. cbn [for_loop length foldl].
  rewrite Hl. cbn [of_option mbind result_bind].
  rewrite add_quiet by (done || lia).
  cbn [mbind result_bind]. rewrite Nat.add_0_r.
  replace (S (length pre)) with (length (pre ++ [a]))
    by (rewrite length_app; simpl; lia).
  apply (IH _ rest).
  - by rewrite <- app_assoc.
  - done.
  - lia.
  - rewrite Hperm, <- Permutation_middle. by apply NoDup_cons.
  - unfold nkeys. rewrite Hperm. unfold nkeys in Hn. simpl. lia.
Qed.

(** The first [m] rounds of the loop put the first [m] extracted keys back
    and call [split] for none. *)
Lemma split_reinsert_take fuel (values : list Key) (s : state) m :
  wf hash N s → split_round s ≤ 29 →
  NoDup (values ++ stored s) →
  nkeys s + Z.of_nat (length values) < 2 ^ 64 →
  (m ≤ length values)%nat →
  split_reinsert (λ key, add hash N (S fuel) key false)
    values (Z.of_nat m) s =
  Ok (foldl (store hash N) s (take m values), 0%nat).
Proof.
  intros Hs Hr Hnd Hn Hm. unfold split_reinsert. rewrite Nat2Z.id.
  rewrite <- (length_take_le values m) at 1 by lia.
  apply (reinsert_loop fuel values (take m values) [] (drop m values)).
  - by rewrite take_drop.
  - done.
  - done.
  - apply (sublist_NoDup _ (values ++ stored s)); [done|].
    apply sublist_app; [apply sublist_take | done].
  - rewrite length_take. lia.
Qed.

(** The loop puts every extracted key back and calls [split] for none. *)
Lemma split_reinsert_spec fuel (values : list Key) (s : state) :
  wf hash N s → split_round s ≤ 29 →
  NoDup (values ++ stored s) →
  nkeys s + Z.of_nat (length values) < 2 ^ 64 →
  split_reinsert (λ key, add hash N (S fuel) key false)
    values (Z.of_nat (length values)) s =
  Ok (foldl (store hash N) s values, 0%nat).
Proof.
  intros Hs Hr Hnd Hn.
  rewrite split_reinsert_take by done. by rewrite firstn_all.
Qed.

(** ** [copy] and [reserve] *)

Lemma copy_loop (old : list (@Bucket.t Key)) suf :
  ∀ pre new,
  old = pre ++ suf → (length old ≤ length new)%nat →
  for_loop (λ i new_table,
      b ← of_option OutOfBounds (old !! i);
      if bool_decide (i < length new_table)%nat
      then Ok (<[i := b]> new_table)
      else Fault OutOfBounds)
    (length pre) (length suf) (pre ++ drop (length pre) new) =
  Ok (old ++ drop (length old) new).
Proof.
  induction suf as [|b suf IH]; intros pre new Ho Hlen.
  - rewrite app_nil_r in Ho. by subst.
  - assert (old !! length pre = Some b) as Hl
      by (rewrite Ho; by apply list_lookup_middle).
    cbn [for_loop length]. rewrite Hl. cbn [of_option mbind result_bind].
    assert (length pre < length new)%nat as Hlt.
    { rewrite Ho, length_app in Hlen. simpl in Hlen. lia. }
    rewrite bool_decide_eq_true_2
      by (rewrite length_app, length_drop; lia).
    destruct (lookup_lt_is_Some_2 new (length pre) Hlt) as [x Hx].
    rewrite (drop_S new x (length pre) Hx).
    rewrite insert_app_r_alt by lia. rewrite Nat.sub_diag. simpl.
    specialize (IH (pre ++ [b]) new).
    rewrite length_app, <- !app_assoc in IH. simpl in IH.
    rewrite Nat.add_1_r in IH. by apply IH.
Qed.

Lemma copy_spec_table (old new : list (@Bucket.t Key)) :
  (length old ≤ length new)%nat →
  copy old (Z.of_nat (length old)) new = Ok (old ++ drop (length old) new).
Proof.
  intros Hlen. unfold copy. rewrite Nat2Z.id.
  by apply (copy_loop old old [] new).
Qed.

Lemma reserve_spec (s : state) m :
  Z.of_nat (length (table s)) = table_size s → table_size s ≤ m →
  reserve s m =
    Ok {| split_round := split_round s;
          table_split_index := table_split_index s;
          table_size := m;
          table_items_size := table_items_size s;
          table :=
            table s ++
            replicate (Z.to_nat m - length (table s)) Bucket.new |}.
Proof.
  intros Hlen Hm. unfold reserve. rewrite <- Hlen.
  rewrite copy_spec_table by (rewrite length_replicate; lia). simpl.
  by rewrite drop_replicate.
Qed.

(** ** [split] up to the re-insertion loop *)

Lemma split_target (s : state) :
  wf hash N s → is_Some (table s !! Z.to_nat (table_split_index s)).
Proof.
  intros Hs. apply lookup_lt_is_Some.
  pose proof (wf_round _ _ _ Hs). pose proof (wf_index _ _ _ Hs).
  pose proof (wf_length _ _ _ Hs) as Hl. rewrite (wf_size _ _ _ Hs) in Hl.
  pose proof (pow2_pos (split_round s)). pose proof (pow2_succ (split_round s)).
  case_bool_decide; lia.
Qed.

Lemma split_detach_spec (s : state) :
  wf hash N s → split_round s ≤ 29 →
  split_detach s =
    Ok (detached s, split_values s, Z.of_nat (length (split_values s))).
Proof.
  intros Hs Hr. pose proof (wf_round _ _ _ Hs) as Hr1.
  pose proof (wf_index _ _ _ Hs) as Hi.
  pose proof (wf_length _ _ _ Hs) as Hl. pose proof (wf_size _ _ _ Hs) as Hz.
  pose proof (pow2_pos (split_round s)) as Hp.
  pose proof (pow2_succ (split_round s)) as Hp2.
  pose proof (pow2_mono (split_round s) 29) as Hp29.
  destruct (split_target s Hs) as [b Hb].
  set (grown :=
    {| split_round := split_round s;
       table_split_index := table_split_index s;
       table_size := 2 ^ (split_round s + 1);
       table_items_size := table_items_size s;
       table :=
         table s ++
         replicate (Z.to_nat (2 ^ (split_round s + 1)) - length (table s))
           Bucket.new |}).
  assert ((if bool_decide (table_size s = 2 ^ split_round s)
           then reserve s (wrap (table_size s * 2)) else Ok s) = Ok grown)
    as Hgrow.
  { destruct (decide (table_size s = 2 ^ split_round s)) as [Hsz|Hsz].
    - rewrite bool_decide_eq_true_2 by done.
      rewrite reserve_spec; [|done|].
      + rewrite wrap_small by lia. unfold grown. rewrite Hsz.
        by replace (2 ^ split_round s * 2) with (2 ^ (split_round s + 1)) by lia.
      + rewrite wrap_small by lia. lia.
    - rewrite bool_decide_eq_false_2 by done.
      assert (table_size s = 2 ^ (split_round s + 1)) as Hsz'
        by (case_bool_decide; [lia | done]).
      unfold grown. rewrite <- Hsz'.
      rewrite <- Hl, Nat2Z.id, Nat.sub_diag. simpl. rewrite app_nil_r.
      rewrite Hl. by destruct s. }
  unfold split_detach. rewrite shl_uint_pow by lia.
  cbn [mbind result_bind]. rewrite Hgrow. cbn [mbind result_bind].
  unfold table_at. cbn [table table_split_index grown].
  rewrite (lookup_app_l_Some _ _ _ _ Hb). cbn [of_option mbind result_bind].
  rewrite (copy_spec N b) by (by eapply wf_buckets).
  cbn [mbind result_bind set_items set_table split_round table_split_index
       table_size table_items_size table grown].
  rewrite shl_uint_pow by lia. cbn [mbind result_bind].
  unfold detached, split_values. rewrite Hb.
  change (default Bucket.new (Some b)) with b.
  rewrite (Bucket.wf_size N b) by (by eapply wf_buckets).
  destruct (decide (2 ^ split_round s ≤ table_split_index s)).
  - rewrite !bool_decide_eq_true_2 by done. by rewrite wrap_small by lia.
  - rewrite !bool_decide_eq_false_2 by done. by rewrite wrap_small by lia.
Qed.

Lemma potential_detached (s : state) :
  wf hash N s → potential (detached s) = potential s + 1.
Proof.
  intros Hs. pose proof (wf_round _ _ _ Hs). pose proof (wf_index _ _ _ Hs).
  pose proof (pow2_succ (split_round s)).
  unfold potential, detached. simpl. case_bool_decide; lia.
Qed.

Lemma stored_detached (s : state) :
  wf hash N s → split_values s ++ stored (detached s) ≡ₚ stored s.
Proof.
  intros Hs. destruct (split_target s Hs) as [b Hb].
  unfold split_values, stored, detached. simpl. rewrite Hb.
  change (default Bucket.new (Some b)) with b.
  rewrite (stored_insert _ _ b); [|by apply lookup_app_l_Some].
  rewrite fmap_app, concat_app, fmap_replicate. simpl.
  change (bkeys Bucket.new) with (@nil Key).
  by rewrite concat_replicate_nil, app_nil_r.
Qed.

(** A key outside the bucket under the split pointer keeps its index when
    the pointer moves on. *)
Lemma index_rule_detached (s : state) key :
  wf hash N s → index_rule hash s key ≠ table_split_index s →
  index_rule hash (detached s) key = index_rule hash s key.
Proof.
  intros Hs. pose proof (wf_round _ _ _ Hs). pose proof (wf_index _ _ _ Hs).
  pose proof (pow2_pos (split_round s)). pose proof (pow2_succ (split_round s)).
  pose proof (Z.mod_pos_bound (hash key) (2 ^ split_round s)).
  unfold index_rule, detached. simpl.
  destruct (decide (2 ^ split_round s ≤ table_split_index s)).
  - rewrite !(bool_decide_eq_true_2 (2 ^ split_round s ≤ _)) by done.
    pose proof (Z.mod_pos_bound (hash key) (2 ^ (split_round s + 1))).
    rewrite (bool_decide_eq_true_2 (_ < table_split_index s)) by lia.
    rewrite bool_decide_eq_false_2 by lia. done.
  - rewrite !(bool_decide_eq_false_2 (2 ^ split_round s ≤ _)) by done.
    repeat case_bool_decide; try done; lia.
Qed.

(** A key of the bucket under the split pointer goes to that bucket or to
    its image [2^d] further. *)
Lemma index_rule_detached_target (s : state) key :
  wf hash N s → index_rule hash s key = table_split_index s →
  index_rule hash (detached s) key = table_split_index s ∨
  (table_split_index s < 2 ^ split_round s ∧
   index_rule hash (detached s) key =
     table_split_index s + 2 ^ split_round s).
Proof.
  intros Hs. pose proof (wf_round _ _ _ Hs). pose proof (wf_index _ _ _ Hs).
  pose proof (pow2_pos (split_round s)). pose proof (pow2_succ (split_round s)).
  pose proof (Z.mod_pos_bound (hash key) (2 ^ split_round s)).
  pose proof (mod_double (hash key) (2 ^ split_round s)) as Hd.
  rewrite <- pow2_succ in Hd by lia.
  unfold index_rule, detached. simpl.
  destruct (decide (2 ^ split_round s ≤ table_split_index s)).
  - rewrite !(bool_decide_eq_true_2 (2 ^ split_round s ≤ _)) by done.
    pose proof (Z.mod_pos_bound (hash key) (2 ^ (split_round s + 1))).
    rewrite (bool_decide_eq_true_2 (_ < table_split_index s)) by lia.
    rewrite bool_decide_eq_false_2 by lia. by left.
  - rewrite !(bool_decide_eq_false_2 (2 ^ split_round s ≤ _)) by done.
    repeat case_bool_decide; lia.
Qed.

Lemma wf_detached (s : state) : wf hash N s → wf hash N (detached s).
Proof.
  intros Hs. pose proof (wf_round _ _ _ Hs). pose proof (wf_index _ _ _ Hs).
  pose proof (wf_length _ _ _ Hs) as Hl. pose proof (wf_size _ _ _ Hs) as Hz.
  pose proof (pow2_pos (split_round s) ltac:(lia)).
  pose proof (pow2_succ (split_round s) ltac:(lia)).
  destruct (split_target s Hs) as [b Hb].
  assert (table_size s ≤ 2 ^ (split_round s + 1)) as Hle
    by (rewrite Hz; case_bool_decide; lia).
  split.
  - unfold detached. simpl. repeat case_bool_decide; lia.
  - unfold detached. simpl. repeat case_bool_decide; lia.
  - unfold detached. simpl. repeat case_bool_decide; try done; lia.
  - unfold detached. simpl.
    rewrite length_insert, length_app, length_replicate. lia.
  - unfold detached. simpl. rewrite Hb.
    intros i b' [(_ & <- & _) | (_ & Hi)]%list_lookup_insert_Some.
    + apply wf_clear.
    + apply lookup_app_Some in Hi as [Hi | [_ Hi]].
      * by eapply wf_buckets.
      * apply lookup_replicate in Hi as [-> _]. apply wf_new.
  - intros i b' key Hi Hk. unfold detached in Hi. simpl in Hi. rewrite Hb in Hi.
    apply list_lookup_insert_Some in Hi as [(_ & <- & _) | (Hne & Hi)].
    + by apply elem_of_nil in Hk.
    + apply lookup_app_Some in Hi as [Hi | [_ Hi]].
      * pose proof (wf_placed _ _ _ Hs i b' key Hi Hk) as Hp.
        rewrite index_rule_detached; [done | done | lia].
      * apply lookup_replicate in Hi as [-> _]. by apply elem_of_nil in Hk.
  - pose proof (wf_nodup _ _ _ Hs) as Hnd.
    rewrite <- (stored_detached s Hs) in Hnd. by apply NoDup_app in Hnd as (_ & _ & ?).
Qed.

(** ** [split] *)

Lemma split_unfold fuel (s : state) :
  split hash N (S fuel) s =
    '(s, values, to_split_size) ← split_detach s;
    '(s, n) ← split_reinsert (λ key, add hash N fuel key false)
                values to_split_size s;
    Ok (s, S n).
Proof. done. Qed.

Lemma wf_potential_round (s : state) :
  wf hash N s → potential s ≤ 2 ^ 30 → split_round s ≤ 29.
Proof.
  intros Hs Hp. pose proof (wf_round _ _ _ Hs). pose proof (wf_index _ _ _ Hs).
  apply (potential_round _ (table_split_index s)); [lia | lia | done].
Qed.

Lemma nkeys_detached (s : state) :
  wf hash N s →
  nkeys (detached s) + Z.of_nat (length (split_values s)) = nkeys s.
Proof.
  intros Hs. unfold nkeys. rewrite <- (stored_detached s Hs), length_app. lia.
Qed.

Lemma resplit_spec (s : state) :
  wf hash N s →
  wf hash N (resplit hash N s) ∧
  stored (resplit hash N s) ≡ₚ stored s ∧
  potential (resplit hash N s) = potential s + 1 ∧
  wrap (table_items_size (resplit hash N s)) = wrap (table_items_size s).
Proof.
  intros Hs. pose proof (wf_detached s Hs) as Hd.
  pose proof (stored_detached s Hs) as Hperm.
  destruct (foldl_store_spec (split_values s) (detached s) Hd)
    as (Hwf & Hst & Hr & Hi & _ & Hit).
  { rewrite Hperm. apply Hs. }
  unfold resplit. split_and!; [done | by etrans | |].
  - unfold potential. rewrite Hr, Hi. apply (potential_detached s Hs).
  - rewrite Hit. destruct (split_target s Hs) as [b Hb].
    unfold detached, split_values. simpl. rewrite Hb.
    change (default Bucket.new (Some b)) with b.
    rewrite (Bucket.wf_size N b (wf_buckets _ _ _ Hs _ _ Hb)).
    rewrite wrap_add_l. f_equal. lia.
Qed.

(** [split] with a fuel of two: one call of [split()], none nested. *)
Lemma split_spec fuel (s : state) :
  wf hash N s → potential s + 1 ≤ 2 ^ 30 → nkeys s < 2 ^ 64 →
  split hash N (S (S fuel)) s = Ok (resplit hash N s, 1%nat).
Proof.
  intros Hs Hp Hn. pose proof (wf_detached s Hs) as Hd.
  rewrite split_unfold, split_detach_spec;
    [|done|apply wf_potential_round; [done|lia]].
  cbn [mbind result_bind]. rewrite split_reinsert_spec; [done|done| | |].
  - apply wf_potential_round; [done|]. rewrite potential_detached by done. lia.
  - rewrite (stored_detached s Hs). apply Hs.
  - rewrite (nkeys_detached s Hs). lia.
Qed.

(** ** [add] *)

Lemma potential_put (s : state) key :
  potential (put hash N s key) = potential s.
Proof.
  unfold potential. by pose proof (put_fields s key) as (-> & -> & _).
Qed.

(** The number of calls of [split()] that [add(key)] makes. *)
Lemma add_spec_table fuel (s : state) key :
  Inv hash N s → nkeys s + 4 ≤ 2 ^ 30 →
  add hash N (S (S (S fuel))) key true s =
    Ok (added hash N s key,
        if bool_decide (key ∈ stored s) then 0%nat
        else if full_at hash N s key then 1%nat else 0%nat).
Proof.
  intros [Hs Hit Hp] Hn.
  assert (split_round s ≤ 29) as Hr by (apply wf_potential_round; [done|lia]).
  unfold added. case_bool_decide as Hk.
  - by apply add_present.
  - destruct (full_at hash N s key) eqn:Hf.
    + rewrite add_overflow by (done || lia).
      rewrite split_spec; [done | by apply wf_put_table | |].
      * rewrite potential_put. lia.
      * rewrite nkeys_put by done. lia.
    + apply add_quiet; [done | done | lia | done | done].
Qed.

Lemma added_spec (s : state) key :
  Inv hash N s → nkeys s + 4 ≤ 2 ^ 30 →
  Inv hash N (added hash N s key) ∧
  stored (added hash N s key) ≡ₚ
    (if bool_decide (key ∈ stored s) then stored s else key :: stored s).
Proof.
  intros [Hs Hit Hp] Hn. unfold added. case_bool_decide as Hk; [by split|].
  pose proof (wf_put_table s key Hs Hk) as Hwp.
  pose proof (stored_put s key Hs) as Hperm.
  pose proof (nkeys_put s key Hs) as Hnk.
  assert (0 ≤ nkeys s) as Hn0 by (unfold nkeys; lia).
  destruct (full_at hash N s key) eqn:Hf.
  - destruct (resplit_spec (put hash N s key) Hwp) as (Hwf & Hst & Hpot & Hw).
    set (s2 := resplit hash N (put hash N s key)) in *.
    assert (nkeys s2 = nkeys s + 1) as Hnk'
      by (unfold nkeys at 1; rewrite Hst; apply Hnk).
    split; [split|].
    + by apply wf_set_items.
    + change (wrap (table_items_size s2 + 1) = nkeys s2).
      rewrite <- wrap_add_l, Hw.
      pose proof (put_fields s key) as (_ & _ & _ & ->).
      rewrite wrap_add_l, Hit, Hnk'. apply wrap_small. lia.
    + change (potential s2 ≤ 3 + nkeys s2).
      rewrite Hpot, potential_put, Hnk'. lia.
    + change (stored s2 ≡ₚ key :: stored s). by etrans.
  - split; [split|].
    + by apply wf_store.
    + pose proof (store_fields s key) as (_ & _ & _ & ->).
      change (wrap (table_items_size s + 1) = nkeys (put hash N s key)).
      rewrite Hnk, Hit. apply wrap_small. lia.
    + pose proof (store_fields s key) as (Hr & Hi & _).
      change (nkeys (store hash N s key)) with (nkeys (put hash N s key)).
      unfold potential. rewrite Hr, Hi, Hnk. fold (potential s). lia.
    + by rewrite stored_store.
Qed.

(** ** [insert] and the constructors *)

Lemma new_spec : @new Key = Ok initial.
Proof. done. Qed.

Lemma Inv_initial : Inv hash N (@initial Key).
Proof.
  split; [split|..]; try done.
  - intros i b Hi. apply list_elem_of_lookup_2 in Hi.
    apply elem_of_cons in Hi as [-> | Hi]; [apply wf_new|].
    apply list_elem_of_singleton in Hi as ->. apply wf_new.
  - intros i b key Hi Hk. apply list_elem_of_lookup_2 in Hi.
    apply elem_of_cons in Hi as [-> | Hi]; [by apply elem_of_nil in Hk|].
    apply list_elem_of_singleton in Hi as ->. by apply elem_of_nil in Hk.
  - apply NoDup_nil_2.
Qed.

Lemma nkeys_added (s : state) key :
  Inv hash N s → nkeys s + 4 ≤ 2 ^ 30 →
  nkeys (added hash N s key) =
    if bool_decide (key ∈ stored s) then nkeys s else nkeys s + 1.
Proof.
  intros Hs Hn. destruct (added_spec s key Hs Hn) as [_ Hperm].
  unfold nkeys. rewrite Hperm. case_bool_decide; simpl; lia.
Qed.

Lemma insert_spec fuel (keys : list Key) :
  ∀ s : state,
  Inv hash N s → nkeys s + Z.of_nat (length keys) + 3 ≤ 2 ^ 30 →
  (∃ n, insert hash N (S (S (S fuel))) keys s =
          Ok (inserted hash N s keys, n)) ∧
  Inv hash N (inserted hash N s keys) ∧
  (∀ k, k ∈ stored (inserted hash N s keys) ↔ k ∈ stored s ∨ k ∈ keys) ∧
  nkeys (inserted hash N s keys) ≤ nkeys s + Z.of_nat (length keys).
Proof.
  induction keys as [|key keys IH]; intros s Hs Hn.
  - split_and!; [by exists 0%nat | done | | simpl; lia].
    intros k. rewrite elem_of_nil. tauto.
  - simpl in Hn.
    destruct (added_spec s key Hs) as [Hs' Hperm]; [lia|].
    pose proof (nkeys_added s key Hs) as Hnk.
    destruct (IH (added hash N s key) Hs') as ([n Hrun] & Hinv & Hmem & Hle).
    { rewrite Hnk by lia. case_bool_decide; lia. }
    split_and!.
    + change (insert hash N (S (S (S fuel))) (key :: keys) s) with
        ('(s, n) ← add hash N (S (S (S fuel))) key true s;
         '(s, m) ← insert hash N (S (S (S fuel))) keys s;
         Ok (s, (n + m)%nat)).
      rewrite add_spec_table by (done || lia). cbn [mbind result_bind].
      rewrite Hrun. cbn [mbind result_bind]. by eexists.
    + done.
    + intros k. unfold inserted in *. simpl. rewrite Hmem, Hperm, elem_of_cons.
      case_bool_decide; [|rewrite elem_of_cons; tauto].
      split; [tauto|]. intros [?|[->|?]]; tauto.
    + unfold inserted in *. simpl length. simpl foldl.
      rewrite Hnk in Hle by lia. case_bool_decide; lia.
Qed.

(** The table built from an initializer list of at most [max_keys] keys:
    the constructor returns, the invariant holds, and the table stores the
    keys of the list and no other. *)
Lemma from_list_spec fuel (l : list Key) :
  (3 ≤ fuel)%nat → Z.of_nat (length l) ≤ max_keys →
  (∃ n, from_list hash N fuel l = Ok (inserted hash N initial l, n)) ∧
  Inv hash N (inserted hash N initial l) ∧
  (∀ k, k ∈ stored (inserted hash N initial l) ↔ k ∈ l) ∧
  nkeys (inserted hash N initial l) ≤ Z.of_nat (length l).
Proof.
  intros Hf Hl. unfold max_keys in Hl.
  destruct fuel as [|[|[|fuel]]]; [lia..|].
  destruct (insert_spec fuel l initial Inv_initial)
    as (Hrun & Hinv & Hmem & Hle); [unfold nkeys; simpl; lia|].
  split_and!; [done | done | | done].
  intros k. rewrite Hmem. unfold stored. simpl. rewrite elem_of_nil.
  tauto.
Qed.

(** ** Consequences of the invariant *)

Lemma Inv_round (s : state) :
  Inv hash N s → nkeys s + 3 ≤ 2 ^ 30 → split_round s ≤ 29.
Proof.
  intros [Hs _ Hp] Hn. apply wf_potential_round; [done | lia].
Qed.



Lemma stored_remove_dups (s : state) (l : list Key) :
  NoDup (stored s) → (∀ k, k ∈ stored s ↔ k ∈ l) →
  nkeys s = Z.of_nat (length (remove_dups l)).
Proof.
  intros Hnd Hmem. unfold nkeys. f_equal. apply Permutation_length.
  apply NoDup_Permutation; [done | apply NoDup_remove_dups |].
  intros k. by rewrite elem_of_remove_dups.
Qed.

(** The split pointer of a reached table is at most [2^split_round]; the
    scenario [split_index_reaches_round_size] below attains the bound. *)
Lemma split_index_range fuel (l : list Key) :
  (3 ≤ fuel)%nat → Z.of_nat (length l) ≤ max_keys →
  ∃ s n, from_list hash N fuel l = Ok (s, n) ∧
    0 ≤ table_split_index s ≤ 2 ^ split_round s.
Proof.
  intros Hf Hl.
  destruct (from_list_spec fuel l Hf Hl) as ([n Hrun] & Hinv & _).
  exists (inserted hash N initial l), n. split; [done|].
  apply (wf_index _ _ _ (inv_wf _ _ _ Hinv)).
Qed.

Lemma from_list_inv fuel (l : list Key) (s : state) n :
  (3 ≤ fuel)%nat → Z.of_nat (length l) ≤ max_keys →
  from_list hash N fuel l = Ok (s, n) → s = inserted hash N initial l.
Proof.
  intros Hf Hl Hrun.
  destruct (from_list_spec fuel l Hf Hl) as ([n' Hrun'] & _).
  rewrite Hrun' in Hrun. by injection Hrun as <- _.
Qed.

Lemma add_to_bucket_inv (s t : state) key overflown :
  wf hash N s → split_round s ≤ 29 → nkeys s + 1 < 2 ^ 64 →
  add_to_bucket hash N s key = Ok (t, overflown) →
  t = put hash N s key ∧ overflown = full_at hash N s key.
Proof.
  intros Hs Hr Hn Hadd. rewrite add_to_bucket_spec in Hadd by done.
  by injection Hadd as <- <-.
Qed.

(** * The claims *)







(** [add] with [overflowable = false] never enters [split()]. *)
Lemma add_false_no_split fuel key (t t' : state) n :
  add hash N fuel key false t = Ok (t', n) → n = 0%nat.
Proof.
  destruct fuel as [|fuel]; [done|]. simpl.
  destruct (count hash t key) as [c|]; [|done]. simpl.
  case_bool_decide; [by intros [= _ <-]|].
  destruct (add_to_bucket hash N t key) as [[t1 ov]|]; [|done]. simpl.
  by intros [= _ <-].
Qed.

(** C7. An insertion into a table reached by insertions enters [split()]
    once when the key is new and [Bucket::add] reports an overflow, and
    not at all otherwise; [add] with [overflowable = false], which is how
    [split] puts keys back, never enters [split()]. *)
Theorem split_once_per_overflow fuel (l : list Key) k :
  (3 ≤ fuel)%nat → Z.of_nat (length l) < max_keys →
  ∃ s m, from_list hash N fuel l = Ok (s, m) ∧
    (∃ s' n, add hash N fuel k true s = Ok (s', n) ∧
       (k ∈ l → count hash s k = Ok 1 ∧ n = 0%nat) ∧
       (k ∉ l →
          count hash s k = Ok 0 ∧
          ∃ t overflown,
            add_to_bucket hash N s k = Ok (t, overflown) ∧
            n = if overflown then 1%nat else 0%nat)) ∧
    (∀ fuel' key (t t' : state) n,
       add hash N fuel' key false t = Ok (t', n) → n = 0%nat).
Proof.
  intros Hf Hl. unfold max_keys in Hl.
  destruct (from_list_spec fuel l Hf) as ([m Hrun] & Hinv & Hmem & Hle);
    [unfold max_keys; lia|].
  set (s := inserted hash N initial l) in *.
  pose proof (inv_wf _ _ _ Hinv) as Hs.
  assert (split_round s ≤ 29) as Hr by (apply Inv_round; [done | lia]).
  exists s, m. split_and!; [done | | apply add_false_no_split].
  destruct fuel as [|[|[|fuel]]]; [lia..|].
  rewrite add_spec_table by (done || lia).
  rewrite (bool_decide_ext _ _ (Hmem k)). eexists _, _. split; [done|].
  split; intros Hk.
  - rewrite count_spec by done.
    rewrite bool_decide_eq_true_2 by (by apply Hmem).
    by rewrite bool_decide_eq_true_2.
  - rewrite count_spec by done.
    rewrite bool_decide_eq_false_2 by (by rewrite Hmem).
    rewrite bool_decide_eq_false_2 by done. split; [done|].
    exists (put hash N s k), (full_at hash N s k). split; [|done].
    apply add_to_bucket_spec; [done | done | lia].
Qed.

(** C6. [clear()] does not reset the table: no call of it can be
    instantiated.  For every table the default constructor returns [tmp],
    and the exchange of the five data members with [tmp] (lines 351-355 of
    [swap]) would leave the fresh table in [this] ([size()] 0, [empty()]
    true, split round, split pointer, array size and buckets initial) and
    the old one in [tmp]; but [swap] goes on to exchange the [const]
    hasher member, so [swap] and with it [clear()] are ill-formed. *)
Theorem clear_ill_formed (s : state) :
  ∃ tmp s' tmp',
    @new Key = Ok tmp ∧
    swap_data s tmp = Ok (s', tmp') ∧
    size s' = 0 ∧ empty s' = true ∧
    split_round s' = 1 ∧ table_split_index s' = 0 ∧ table_size s' = 2 ∧
    table s' = [Bucket.new; Bucket.new] ∧
    tmp' = s ∧
    swap hash s tmp = Fault IllFormed ∧
    (∀ other, swap hash s other = Fault IllFormed) ∧
    clear hash s = Fault IllFormed.
Proof.
  exists initial. eexists _, _.
  split_and!; try done. by destruct s.
Qed.

(** ** A split with the pointer at the end of the round *)

Lemma wrap_range z : 0 ≤ wrap z < 2 ^ 64.
Proof. unfold wrap. by apply Z.mod_pos_bound. Qed.

Lemma index_rule_store (u : state) a key :
  index_rule hash (store hash N u a) key = index_rule hash u key.
Proof.
  unfold index_rule. by pose proof (store_fields u a) as (-> & -> & _).
Qed.

(** Keys that all go to bucket [j] change that bucket only. *)
Lemma foldl_store_same (vs : list Key) :
  ∀ (u : state) bj j,
  (∀ v, v ∈ vs → Z.to_nat (index_rule hash u v) = j) →
  table u !! j = Some bj →
  table (foldl (store hash N) u vs) =
    <[j := foldl (Bucket.put N) bj vs]> (table u).
Proof.
  induction vs as [|a vs IH]; intros u bj j Hj Hb; simpl.
  - symmetry. by apply list_insert_id.
  - assert (Z.to_nat (index_rule hash u a) = j) as Ha
      by apply Hj, list_elem_of_here.
    assert (table (store hash N u a) = <[j := Bucket.put N bj a]> (table u))
      as Ht.
    { change (table (store hash N u a)) with (table (put hash N u a)).
      rewrite <- Ha in Hb. rewrite (put_lookup u a bj Hb). simpl.
      by rewrite Ha. }
    rewrite (IH (store hash N u a) (Bucket.put N bj a) j).
    + by rewrite Ht, list_insert_insert_eq.
    + intros v Hv. rewrite index_rule_store. by apply Hj, list_elem_of_further.
    + rewrite Ht. apply list_lookup_insert_eq. by eapply lookup_lt_Some.
Qed.

Lemma items_resplit_range (t : state) :
  0 ≤ table_items_size (resplit hash N t) < 2 ^ 64.
Proof.
  unfold resplit.
  destruct (split_values t) as [|v vs _] using rev_ind.
  - apply wrap_range.
  - rewrite foldl_app. cbn [foldl].
    pose proof (store_fields (foldl (store hash N) (detached t) vs) v)
      as (_ & _ & _ & ->).
    apply wrap_range.
Qed.

(** [split] on a well-formed table whose split pointer is [2^d]: every
    extracted key goes back to the bucket it came from, and the table
    differs from the one before in the split round and pointer only. *)
Lemma resplit_round_end (t : state) :
  wf hash N t → table_split_index t = 2 ^ split_round t →
  0 ≤ table_items_size t < 2 ^ 64 →
  (∀ key, key ∈ split_values t →
     index_rule hash (detached t) key = table_split_index t) ∧
  resplit hash N t =
    {| split_round := split_round t + 1;
       table_split_index := 0;
       table_size := table_size t;
       table_items_size := table_items_size t;
       table := table t |}.
Proof.
  intros Ht Hi Hit. pose proof (wf_round _ _ _ Ht) as Hr.
  pose proof (pow2_pos (split_round t) ltac:(lia)) as Hpos.
  pose proof (wf_size _ _ _ Ht) as Hz.
  rewrite bool_decide_eq_false_2 in Hz by lia.
  pose proof (wf_length _ _ _ Ht) as Hl.
  destruct (split_target t Ht) as [b Hb].
  pose proof (wf_buckets _ _ _ Ht _ _ Hb) as Hwb.
  assert (∀ key, key ∈ split_values t →
            index_rule hash (detached t) key = table_split_index t) as Hsame.
  { intros key Hk. unfold split_values in Hk. rewrite Hb in Hk.
    pose proof (wf_placed _ _ _ Ht _ _ key Hb Hk) as Hp.
    destruct (index_rule_detached_target t key Ht) as [? | [? _]];
      [lia | done | lia]. }
  split; [done|].
  pose proof (wf_detached t Ht) as Hd.
  destruct (foldl_store_spec (split_values t) (detached t) Hd)
    as (_ & _ & Hr' & Hi' & Hz' & _).
  { rewrite (stored_detached t Ht). apply Ht. }
  destruct (resplit_spec t Ht) as (_ & _ & _ & Hw).
  pose proof (items_resplit_range t) as Hrange.
  rewrite (wrap_small _ Hrange), (wrap_small _ Hit) in Hw.
  assert (table (detached t) =
            <[Z.to_nat (table_split_index t) := Bucket.clear b]> (table t))
    as Htd.
  { unfold detached. simpl. rewrite Hb.
    rewrite <- Hz, <- Hl, Nat2Z.id, Nat.sub_diag. simpl.
    by rewrite app_nil_r. }
  assert (table (resplit hash N t) = table t) as Htab.
  { unfold resplit.
    rewrite (foldl_store_same _ _ (Bucket.clear b)
               (Z.to_nat (table_split_index t))).
    - unfold split_values. rewrite Hb.
      change (default Bucket.new (Some b)) with b.
      rewrite (foldl_put_clear N b Hwb), Htd, list_insert_insert_eq.
      by apply list_insert_id.
    - intros v Hv. by rewrite (Hsame v Hv).
    - rewrite Htd. apply list_lookup_insert_eq. by eapply lookup_lt_Some. }
  unfold resplit in *. 
  destruct (foldl (store hash N) (detached t) (split_values t))
    as [r' i' z' n' tb']. simpl in *. subst.
  unfold detached. simpl.
  rewrite !bool_decide_eq_true_2 by lia. f_equal. lia.
Qed.

(** C10. When [split] runs with the split pointer equal to
    [2^split_round], it moves to round [split_round + 1] with the pointer
    at 0, every key it extracts from the bucket at index [2^split_round]
    is put back by the updated rule into that bucket, and afterwards the
    table differs from the one before the split in [split_round] and
    [table_split_index] only. *)
Theorem split_at_round_end fuel (l : list Key) k (s t : state) n :
  (3 ≤ fuel)%nat → Z.of_nat (length l) < max_keys →
  from_list hash N fuel l = Ok (s, n) →
  k ∉ l →
  add_to_bucket hash N s k = Ok (t, true) →
  table_split_index s = 2 ^ split_round s →
  (∃ t' values size,
     split_detach t = Ok (t', values, size) ∧
     split_round t' = split_round s + 1 ∧
     table_split_index t' = 0 ∧
     ∀ key, key ∈ values →
       bucket_at hash t key = Ok (2 ^ split_round s) ∧
       bucket_at hash t' key = Ok (2 ^ split_round s)) ∧
  split hash N (Nat.pred fuel) t =
    Ok ({| split_round := split_round s + 1;
           table_split_index := 0;
           table_size := table_size t;
           table_items_size := table_items_size t;
           table := table t |}, 1%nat).
Proof.
  intros Hf Hl Hrun Hk Hadd Hidx. unfold max_keys in Hl.
  apply from_list_inv in Hrun as ->; [|done|unfold max_keys; lia].
  destruct (from_list_spec fuel l Hf) as (_ & Hinv & Hmem & Hle);
    [unfold max_keys; lia|].
  set (s := inserted hash N initial l) in *.
  pose proof (inv_wf _ _ _ Hinv) as Hs.
  pose proof (inv_potential _ _ _ Hinv) as Hp.
  pose proof (wf_round _ _ _ Hs) as Hr1.
  assert (split_round s ≤ 29) as Hr by (apply Inv_round; [done | lia]).
  rewrite <- Hmem in Hk.
  apply add_to_bucket_inv in Hadd as [-> _]; [|done|done|lia].
  pose proof (wf_put_table s k Hs Hk) as Hwp.
  pose proof (put_fields s k) as (Hpr & Hpi & Hpz & Hpn).
  assert (0 ≤ nkeys s) as Hn0 by (unfold nkeys; lia).
  destruct (resplit_round_end (put hash N s k) Hwp) as [Hsame Hres].
  { by rewrite Hpr, Hpi. }
  { rewrite Hpn, (inv_items _ _ _ Hinv). lia. }
  assert (split_round (detached (put hash N s k)) = split_round s + 1 ∧
          table_split_index (detached (put hash N s k)) = 0) as [Hdr Hdi].
  { unfold detached. simpl. rewrite Hpr, Hpi.
    by rewrite !bool_decide_eq_true_2 by lia. }
  split.
  - eexists _, _, _. split_and!; [|done|done|].
    + apply split_detach_spec; [done | by rewrite Hpr].
    + intros key Hkey. split.
      * rewrite bucket_at_rule by (rewrite Hpr; lia).
        unfold split_values in Hkey.
        destruct (split_target _ Hwp) as [b Hb]. rewrite Hb in Hkey.
        rewrite (wf_placed _ _ _ Hwp _ _ key Hb Hkey).
        rewrite Z2Nat.id, Hpi by (rewrite Hpi, Hidx; lia). by rewrite Hidx.
      * assert (split_round (detached (put hash N s k)) ≤ 29) as Hr'.
        { apply wf_potential_round; [by apply wf_detached|].
          rewrite potential_detached, potential_put by done. lia. }
        rewrite bucket_at_rule by lia.
        by rewrite (Hsame key Hkey), Hpi, Hidx.
  - destruct fuel as [|[|[|fuel]]]; [lia..|]. simpl Nat.pred.
    rewrite split_spec; [| done | rewrite potential_put; lia |].
    + by rewrite Hres, Hpr.
    + rewrite nkeys_put by done. lia.
Qed.

(** ** The item counter during a split *)

Lemma index_rule_put (s : state) k key :
  index_rule hash (put hash N s k) key = index_rule hash s key.
Proof.
  unfold index_rule. by pose proof (put_fields s k) as (-> & -> & _).
Qed.

(** A bucket that the rule names for every stored key holds them all. *)
Lemma keys_all_in_bucket (t : state) b j :
  wf hash N t → table t !! j = Some b →
  (∀ key, key ∈ stored t → index_rule hash t key = Z.of_nat j) →
  Z.of_nat (length (Bucket.keys b)) = nkeys t.
Proof.
  intros Ht Hb Hall. pose proof (keys_le_nkeys t j b Hb) as Hle.
  assert (stored t ⊆+ Bucket.keys b) as Hsub.
  { apply NoDup_submseteq; [apply Ht|]. intros key Hk.
    apply (elem_of_stored_rule t key b Ht); [|done].
    by rewrite (Hall key Hk), Nat2Z.id. }
  apply submseteq_length in Hsub. unfold nkeys in *. lia.
Qed.

(** ** The first overflow *)

Lemma insert_app fuel (l1 l2 : list Key) :
  ∀ s : state,
  insert hash N fuel (l1 ++ l2) s =
    '(s1, n1) ← insert hash N fuel l1 s;
    '(s2, n2) ← insert hash N fuel l2 s1;
    Ok (s2, (n1 + n2)%nat).
Proof.
  induction l1 as [|a l1 IH]; intros s; simpl.
  - by destruct (insert hash N fuel l2 s) as [[s2 n2]|].
  - destruct (add hash N fuel a true s) as [[s1 n1]|]; simpl; [|done].
    rewrite IH.
    destruct (insert hash N fuel l1 s1) as [[s1' n1']|]; simpl; [|done].
    destruct (insert hash N fuel l2 s1') as [[s2 n2]|]; simpl; [|done].
    by rewrite Nat.add_assoc.
Qed.

(** The counter after the re-insertion of [values]: one more per key,
    modulo [2^64]. *)
Lemma items_foldl_store (values : list Key) (s : state) :
  0 ≤ table_items_size s < 2 ^ 64 →
  table_items_size (foldl (store hash N) s values) =
    wrap (table_items_size s + Z.of_nat (length values)).
Proof.
  intros Hrange. induction values as [|v vs IH] using rev_ind.
  - simpl. rewrite Z.add_0_r. symmetry. by apply wrap_small.
  - rewrite foldl_app, length_app. cbn [foldl length].
    pose proof (store_fields (foldl (store hash N) s vs) v)
      as (_ & _ & _ & ->).
    rewrite IH, wrap_add_l. f_equal. lia.
Qed.

(** C9. When the key just added is in the bucket under the split pointer
    and that bucket holds every stored key, [split] records a size that
    exceeds [table_items_size] by one and the subtraction wraps to
    [2^64 - 1]; the re-insertion loop, run on that wrapped table, counts
    one up per key modulo [2^64] and ends at the value before the split;
    [split] returns the table of the loop, [add] increments its counter,
    and [size()] is again the number of distinct keys, which is the number
    of keys in the buckets. *)
Theorem items_wrap_in_split fuel (l : list Key) k (s t : state) n :
  (3 ≤ fuel)%nat → Z.of_nat (length l) < max_keys →
  from_list hash N fuel l = Ok (s, n) →
  k ∉ l →
  add_to_bucket hash N s k = Ok (t, true) →
  Forall (λ key, bucket_at hash s key = Ok (table_split_index s)) (k :: l) →
  table_items_size t = table_items_size s ∧
  ∃ t' values t'' s',
    split_detach t = Ok (t', values, table_items_size t + 1) ∧
    table_items_size t' = 2 ^ 64 - 1 ∧
    (∀ i, (i ≤ length values)%nat →
       ∃ u,
         split_reinsert
           (λ key, add hash N (Nat.pred (Nat.pred fuel)) key false)
           values (Z.of_nat i) t' = Ok (u, 0%nat) ∧
         table_items_size u = wrap (2 ^ 64 - 1 + Z.of_nat i)) ∧
    split_reinsert
      (λ key, add hash N (Nat.pred (Nat.pred fuel)) key false)
      values (table_items_size t + 1) t' = Ok (t'', 0%nat) ∧
    table_items_size t'' = table_items_size s ∧
    split hash N (Nat.pred fuel) t = Ok (t'', 1%nat) ∧
    s' = set_items t'' (wrap (table_items_size t'' + 1)) ∧
    add hash N fuel k true s = Ok (s', 1%nat) ∧
    from_list hash N fuel (l ++ [k]) = Ok (s', (n + 1)%nat) ∧
    size s' = size s + 1 ∧
    size s' = Z.of_nat (length (remove_dups (l ++ [k]))) ∧
    size s' =
      Z.of_nat
        (length (concat ((λ b, concat (Bucket.slices b)) <$> table s'))).
Proof.
  intros Hf Hl Hrun Hk Hadd Hall. unfold max_keys in Hl.
  rewrite Forall_forall in Hall. pose proof Hrun as Hrun0.
  apply from_list_inv in Hrun as ->; [|done|unfold max_keys; lia].
  destruct (from_list_spec fuel l Hf) as (_ & Hinv & Hmem & Hle);
    [unfold max_keys; lia|].
  set (s := inserted hash N initial l) in *.
  pose proof (inv_wf _ _ _ Hinv) as Hs.
  pose proof (inv_potential _ _ _ Hinv) as Hpot.
  pose proof (wf_round _ _ _ Hs) as Hr1.
  assert (split_round s ≤ 29) as Hr by (apply Inv_round; [done | lia]).
  assert (k ∉ stored s) as Hk' by (by rewrite Hmem).
  apply add_to_bucket_inv in Hadd as [-> Hfull]; [|done|done|lia].
  pose proof (wf_put_table s k Hs Hk') as Hwp.
  pose proof (put_fields s k) as (Hpr & Hpi & Hpz & Hpn).
  pose proof (wf_index _ _ _ Hs) as Hi.
  assert (0 ≤ nkeys s) as Hn0 by (unfold nkeys; lia).
  destruct (split_target (put hash N s k) Hwp) as [b Hb].
  assert (Z.of_nat (length (Bucket.keys b)) = nkeys s + 1) as Hlen.
  { rewrite <- (nkeys_put s k Hs).
    apply (keys_all_in_bucket _ b _ Hwp Hb).
    intros key Hkey. rewrite (stored_put s k Hs) in Hkey.
    rewrite index_rule_put, Hpi, Z2Nat.id by lia.
    assert (key ∈ k :: l) as Hin.
    { apply elem_of_cons in Hkey as [-> | Hkey]; [apply list_elem_of_here|].
      apply list_elem_of_further. by apply Hmem. }
    specialize (Hall key Hin). rewrite bucket_at_rule in Hall by lia.
    by injection Hall. }
  set (t := put hash N s k) in *.
  assert (split_values t = Bucket.keys b) as Hvals
    by (unfold split_values; by rewrite Hb).
  assert (Z.of_nat (length (split_values t)) = table_items_size t + 1)
    as Hsz by (by rewrite Hvals, Hlen, Hpn, (inv_items _ _ _ Hinv)).
  assert (table_items_size (detached t) = 2 ^ 64 - 1) as Hwrap.
  { unfold detached. simpl. rewrite Hb.
    change (default Bucket.new (Some b)) with b.
    rewrite (Bucket.wf_size N b (wf_buckets _ _ _ Hwp _ _ Hb)).
    rewrite Hlen, Hpn, (inv_items _ _ _ Hinv).
    by replace (nkeys s - (nkeys s + 1)) with (-1) by lia. }
  pose proof (wf_detached t Hwp) as Hd.
  assert (potential t = potential s) as Hpt by apply potential_put.
  assert (nkeys t = nkeys s + 1) as Hnt by apply (nkeys_put s k Hs).
  assert (split_round (detached t) ≤ 29) as Hrd.
  { apply wf_potential_round; [done|].
    rewrite potential_detached by done. lia. }
  assert (NoDup (split_values t ++ stored (detached t))) as Hnd
    by (rewrite (stored_detached t Hwp); apply Hwp).
  pose proof (nkeys_detached t Hwp) as Hnd'.
  assert (0 ≤ table_items_size (detached t) < 2 ^ 64) as Hrange
    by (rewrite Hwrap; lia).
  assert (table_items_size (resplit hash N t) = table_items_size s) as Hback.
  { unfold resplit. rewrite (items_foldl_store _ _ Hrange), Hwrap, Hsz, Hpn.
    rewrite (inv_items _ _ _ Hinv).
    replace (2 ^ 64 - 1 + (nkeys s + 1)) with (nkeys s + 1 * 2 ^ 64) by lia.
    unfold wrap. rewrite Z_mod_plus_full. apply Z.mod_small. lia. }
  destruct (added_spec s k Hinv) as [Hinv' _]; [lia|].
  pose proof (nkeys_added s k Hinv) as Hnk.
  rewrite (bool_decide_eq_false_2 (k ∈ stored s)) in Hnk by done.
  assert (added hash N s k =
          set_items (resplit hash N t)
            (wrap (table_items_size (resplit hash N t) + 1))) as Hadded.
  { unfold added. rewrite (bool_decide_eq_false_2 (k ∈ stored s)) by done.
    by rewrite <- Hfull. }
  destruct fuel as [|[|[|fuel]]]; [lia..|]. cbn [Nat.pred].
  assert (add hash N (S (S (S fuel))) k true s =
          Ok (added hash N s k, 1%nat)) as Hadd.
  { rewrite add_spec_table by (done || lia).
    rewrite (bool_decide_eq_false_2 (k ∈ stored s)) by done.
    by rewrite <- Hfull. }
  split; [done|].
  exists (detached t), (split_values t), (resplit hash N t),
    (added hash N s k).
  split_and!.
  - rewrite split_detach_spec; [|done|by rewrite Hpr]. by rewrite Hsz.
  - done.
  - intros i Hi'. eexists. split.
    + apply split_reinsert_take; [done | done | done | lia | done].
    + rewrite (items_foldl_store _ _ Hrange), Hwrap.
      by rewrite length_take_le.
  - rewrite <- Hsz. apply split_reinsert_spec; [done | done | done | lia].
  - done.
  - apply split_spec; [done | lia | lia].
  - done.
  - done.
  - unfold from_list in *. rewrite new_spec in *.
    cbn [mbind result_bind] in *. rewrite insert_app, Hrun0.
    cbn [mbind result_bind insert]. rewrite Hadd.
    cbn [mbind result_bind]. by rewrite Nat.add_0_r.
  - unfold size. rewrite (inv_items _ _ _ Hinv'), (inv_items _ _ _ Hinv).
    apply Hnk. lia.
  - unfold size. rewrite (inv_items _ _ _ Hinv').
    apply stored_remove_dups; [apply Hinv'|].
    intros key. destruct (added_spec s k Hinv) as [_ Hperm]; [lia|].
    rewrite Hperm, (bool_decide_eq_false_2 (k ∈ stored s)) by done.
    rewrite elem_of_cons, elem_of_app, list_elem_of_singleton, Hmem. tauto.
  - unfold size. by rewrite (inv_items _ _ _ Hinv').
Qed.

Lemma keys_submseteq_stored (t : state) j b :
  table t !! j = Some b → Bucket.keys b ⊆+ stored t.
Proof.
  intros Hb. apply sublist_submseteq. unfold stored.
  rewrite (stored_middle _ j b Hb).
  by apply sublist_inserts_l, sublist_inserts_r.
Qed.

(** A bucket overflows only when it holds [N] keys or more. *)
Lemma full_at_nkeys (s : state) key :
  full_at hash N s key = true → N ≤ nkeys s.
Proof.
  unfold full_at.
  destruct (table s !! Z.to_nat (index_rule hash s key)) as [b|] eqn:Hb;
    [|done].
  intros Hf%full_length. pose proof (keys_le_nkeys s _ b Hb). lia.
Qed.

(** While the table holds fewer than [N] keys no insertion splits. *)
Lemma insert_quiet fuel (l : list Key) :
  ∀ s : state,
  Inv hash N s → nkeys s + Z.of_nat (length l) ≤ N →
  nkeys s + Z.of_nat (length l) + 3 ≤ 2 ^ 30 →
  insert hash N (S (S (S fuel))) l s = Ok (inserted hash N s l, 0%nat) ∧
  split_round (inserted hash N s l) = split_round s ∧
  table_split_index (inserted hash N s l) = table_split_index s.
Proof.
  induction l as [|key l IH]; intros s Hs HN Hn; [done|].
  simpl in HN, Hn.
  assert (full_at hash N s key = false) as Hf.
  { destruct (full_at hash N s key) eqn:Hf; [|done].
    apply full_at_nkeys in Hf. lia. }
  destruct (added_spec s key Hs) as [Hs' _]; [lia|].
  pose proof (nkeys_added s key Hs) as Hnk.
  assert (split_round (added hash N s key) = split_round s ∧
          table_split_index (added hash N s key) = table_split_index s)
    as [Hr Hi].
  { unfold added. rewrite Hf. case_bool_decide; [done|].
    by pose proof (store_fields s key) as (-> & -> & _). }
  destruct (IH (added hash N s key) Hs') as (Hrun & Hr' & Hi').
  { rewrite Hnk by lia. case_bool_decide; lia. }
  { rewrite Hnk by lia. case_bool_decide; lia. }
  split_and!.
  - change (insert hash N (S (S (S fuel))) (key :: l) s) with
      ('(s, n) ← add hash N (S (S (S fuel))) key true s;
       '(s, m) ← insert hash N (S (S (S fuel))) l s;
       Ok (s, (n + m)%nat)).
    rewrite add_spec_table by (done || lia). rewrite Hf.
    cbn [mbind result_bind]. rewrite Hrun. by case_bool_decide.
  - unfold inserted in *. simpl. by rewrite Hr', Hr.
  - unfold inserted in *. simpl. by rewrite Hi', Hi.
Qed.

(** In a table that was never split and holds [N] keys, the bucket of a
    key overflows exactly when all stored keys hash to its parity. *)
Lemma full_at_parity (s : state) k :
  Inv hash N s → split_round s = 1 → table_split_index s = 0 →
  nkeys s = N →
  full_at hash N s k = true ↔
  Forall (λ key, hash key mod 2 = hash k mod 2) (stored s).
Proof.
  intros [Hs _ _] Hr Hi Hn.
  assert (∀ key, index_rule hash s key = hash key mod 2) as Hrule.
  { intros key. unfold index_rule. rewrite Hr, Hi.
    pose proof (Z.mod_pos_bound (hash key) 2).
    by rewrite bool_decide_eq_false_2 by (change (2 ^ 1) with 2; lia). }
  destruct (lookup_index_rule s k Hs) as [b Hb].
  pose proof (wf_buckets _ _ _ Hs _ _ Hb) as Hwb.
  pose proof (keys_le_nkeys s _ b Hb) as Hle.
  unfold full_at. rewrite Hb. rewrite Forall_forall. split.
  - intros Hf%full_length key Hkey.
    assert (Bucket.keys b ≡ₚ stored s) as Hperm.
    { apply submseteq_length_Permutation;
        [by eapply keys_submseteq_stored | unfold nkeys in *; lia]. }
    rewrite <- Hperm in Hkey.
    pose proof (wf_placed _ _ _ Hs _ _ key Hb Hkey) as Hp.
    rewrite Z2Nat.id in Hp by (pose proof (index_rule_range s k Hs); lia).
    by rewrite <- !Hrule.
  - intros Hall.
    assert (Z.of_nat (length (Bucket.keys b)) = nkeys s) as Hlen.
    { apply (keys_all_in_bucket s b _ Hs Hb). intros key Hkey.
      rewrite Z2Nat.id by (pose proof (index_rule_range s k Hs); lia).
      rewrite !Hrule. by apply Hall. }
    unfold Bucket.full. rewrite (Bucket.wf_slices N b Hwb).
    rewrite pack_short by lia. simpl. apply bool_decide_eq_true_2. lia.
Qed.

(** The insertion of [N + 1] distinct keys into a fresh table splits once
    if all of them hash to one parity, and never otherwise. *)
Lemma first_overflow fuel (l : list Key) k :
  (3 ≤ fuel)%nat → NoDup (l ++ [k]) → Z.of_nat (length l) = N →
  N + 4 ≤ 2 ^ 30 →
  ∃ s n, from_list hash N fuel (l ++ [k]) = Ok (s, n) ∧
    n = (if bool_decide (Forall (λ key, hash key mod 2 = hash k mod 2) l)
         then 1%nat else 0%nat) ∧
    split_round s = 1 ∧ table_split_index s = Z.of_nat n.
Proof.
  intros Hf Hnd Hlen HN. destruct fuel as [|[|[|fuel]]]; [lia..|].
  apply NoDup_app in Hnd as (Hndl & Hk & _).
  assert (k ∉ l) as Hkl.
  { intros Hin. apply (Hk k Hin), list_elem_of_here. }
  destruct (insert_quiet fuel l initial Inv_initial) as (Hrun & Hr & Hi);
    [unfold nkeys; simpl; lia..|].
  destruct (from_list_spec (S (S (S fuel))) l) as (_ & Hinv & Hmem & _);
    [lia | unfold max_keys; lia |].
  set (s := inserted hash N initial l) in *.
  pose proof (inv_wf _ _ _ Hinv) as Hs.
  assert (stored s ≡ₚ l) as Hperm
    by (apply NoDup_Permutation; [apply Hs | done | done]).
  assert (nkeys s = N) as Hnk by (unfold nkeys; by rewrite Hperm).
  assert (k ∉ stored s) as Hks by (by rewrite Hmem).
  pose proof (full_at_parity s k Hinv Hr Hi Hnk) as Hpar.
  rewrite Hperm in Hpar.
  unfold from_list. rewrite new_spec. cbn [mbind result_bind].
  rewrite insert_app, Hrun. cbn [mbind result_bind insert].
  rewrite add_spec_table by (done || lia). cbn [mbind result_bind].
  rewrite bool_decide_eq_false_2 by done. eexists _, _. split; [done|].
  unfold added. rewrite (bool_decide_eq_false_2 (k ∈ stored s)) by done.
  destruct (full_at hash N s k) eqn:Hfull.
  - rewrite bool_decide_eq_true_2 by (by apply Hpar). split; [done|].
    pose proof (wf_put_table s k Hs Hks) as Hwp.
    pose proof (put_fields s k) as (Hpr & Hpi & _).
    destruct (foldl_store_spec (split_values (put hash N s k))
                (detached (put hash N s k)) (wf_detached _ Hwp))
      as (_ & _ & Hr' & Hi' & _).
    { rewrite (stored_detached _ Hwp). apply Hwp. }
    simpl. unfold resplit. rewrite Hr', Hi'. unfold detached. simpl.
    rewrite Hpr, Hpi, Hr, Hi. done.
  - rewrite bool_decide_eq_false_2; [|intros Hall; apply Hpar in Hall; done].
    split; [done|].
    by pose proof (store_fields s k) as (-> & -> & _).
Qed.

End TableFacts.

(** * The scenarios on [ADS_set<int, 5>] *)

(** The sixth key of a bucket opens an overflow slice. *)
Example bucket_add_sixth :
  Bucket.add 5 {| Bucket.slices := [[1; 2; 3; 4; 5]]; Bucket.size := 5 |} 6 =
    Ok ({| Bucket.slices := [[1; 2; 3; 4; 5]; [6]]; Bucket.size := 6 |}, true).
Proof. by vm_compute. Qed.

(** Below the split pointer [bucket_at] uses the hash function of the
    next round. *)
Example bucket_at_below_pointer :
  ADS_set.bucket_at int_hash
    {| ADS_set.split_round := 1;
       ADS_set.table_split_index := 1;
       ADS_set.table_size := 4;
       ADS_set.table_items_size := 0;
       ADS_set.table := replicate 4 Bucket.new |} 6 = Ok 2.
Proof. by vm_compute. Qed.

(** The shifts of the source at the end of their range. *)
Example shl_int_31 :
  shl_int 30 = Ok (2 ^ 30) ∧ shl_int 31 = Ok (2 ^ 64 - 2 ^ 31) ∧
  shl_int 32 = Fault BadShift ∧ shl_uint 31 = Ok (2 ^ 31) ∧
  shl_uint 32 = Fault BadShift.
Proof. by vm_compute. Qed.

(** An insertion that splits needs a recursion depth of three. *)
Example insert_needs_three :
  ADS_set.from_list int_hash 5 2 [0; 2; 4; 6; 8; 10] = Fault OutOfFuel.
Proof. by vm_compute. Qed.

(** C4. With [N = 5] and the keys 0, 2, 4, 6, 8, 10, 12, 16, 20 the table
    splits twice in round 1 and is left with [table_split_index = 2],
    which is [2^split_round]: the pointer is not below the number of
    buckets of the round. *)
Theorem split_index_reaches_round_size :
  ∃ s, ADS_set.from_list int_hash 5 3 [0; 2; 4; 6; 8; 10; 12; 16; 20]
         = Ok (s, 2%nat) ∧
    ADS_set.split_round s = 1 ∧ ADS_set.table_split_index s = 2 ∧
    ADS_set.table_split_index s = 2 ^ ADS_set.split_round s.
Proof. eexists. split; [by vm_compute|]. by split_and!. Qed.

(** Six keys that all go to bucket 0, before and after the split: the
    sixth re-insertion of the redistribution overflows the bucket again,
    and [split()] is still entered once only. *)
Example redistribution_overflow :
  ∃ s, ADS_set.from_list int_hash 5 3 [0; 4; 8; 12; 16; 20] = Ok (s, 1%nat) ∧
    ADS_set.split_round s = 1 ∧ ADS_set.table_split_index s = 1 ∧
    Bucket.slices <$> ADS_set.table s =
      [[[0; 4; 8; 12; 16]; [20]]; [[]]; [[]]; [[]]].
Proof. eexists. split; [by vm_compute|]. by split_and!. Qed.

(** C5 as stated fails: with the identity hash the keys 1 to 6 go three
    to each of the two buckets, no bucket overflows, [split()] is never
    entered and the split state stays the initial one. *)
Lemma initializer_batch_no_split :
  (∃ s, ADS_set.from_list int_hash 5 3 [1; 2; 3; 4; 5; 6] = Ok (s, 0%nat) ∧
     ADS_set.split_round s = 1 ∧ ADS_set.table_split_index s = 0 ∧
     Bucket.slices <$> ADS_set.table s = [[[2; 4; 6]]; [[1; 3; 5]]]) ∧
  ¬ (∃ s, ADS_set.from_list int_hash 5 3 [1; 2; 3; 4; 5; 6] = Ok (s, 1%nat) ∧
       (ADS_set.split_round s ≠ 1 ∨ ADS_set.table_split_index s ≠ 0)).
Proof.
  split.
  - eexists. split; [by vm_compute|]. by split_and!.
  - intros (s & Hrun & _). vm_compute in Hrun. discriminate Hrun.
Qed.

(** C5, amended. Whatever the hash function, the construction from the
    keys 1 to 6 with [N = 5] enters [split()] once if the six hash values
    have one parity (all keys fall into one of the two buckets), and never
    otherwise; [split_round] stays 1 and [table_split_index] is the number
    of splits. *)
Theorem initializer_batch_split (hash : Z → Z) fuel :
  (3 ≤ fuel)%nat →
  ∃ s n, ADS_set.from_list hash 5 fuel [1; 2; 3; 4; 5; 6] = Ok (s, n) ∧
    n = (if bool_decide
              (Forall (λ key, hash key mod 2 = hash 6 mod 2) [1; 2; 3; 4; 5])
         then 1%nat else 0%nat) ∧
    ADS_set.split_round s = 1 ∧
    ADS_set.table_split_index s = Z.of_nat n.
Proof.
  intros Hf.
  apply (first_overflow hash 5 ltac:(lia) fuel [1; 2; 3; 4; 5] 6);
    [done | | done | done].
  apply (bool_decide_unpack _). by vm_compute.
Qed.

(** * The theorems at concrete inputs *)

(** The table of the fifty keys 0..49 is built without fault and holds
    them all; [clear()] on it is ill-formed. *)
Example clear_after_fifty_keys :
  ∃ s n, ADS_set.from_list int_hash 5 3 (Z.of_nat <$> seq 0 50) = Ok (s, n) ∧
    ADS_set.size s = 50 ∧
    ADS_set.clear int_hash s = Fault IllFormed.
Proof. eexists _, _. split; [by vm_compute|]. split; by vm_compute. Qed.





Lemma split_once_per_overflow_witness :
  0 < 5 ∧ (3 ≤ 3)%nat ∧
  Z.of_nat (length [0; 2; 4; 6; 8]) < ADS_set.max_keys ∧
  ∃ s m, ADS_set.from_list int_hash 5 3 [0; 2; 4; 6; 8] = Ok (s, m) ∧
    (∃ s' n, ADS_set.add int_hash 5 3 10 true s = Ok (s', n) ∧
       (10 ∈ [0; 2; 4; 6; 8] →
          ADS_set.count int_hash s 10 = Ok 1 ∧ n = 0%nat) ∧
       (10 ∉ [0; 2; 4; 6; 8] →
          ADS_set.count int_hash s 10 = Ok 0 ∧
          ∃ t overflown,
            ADS_set.add_to_bucket int_hash 5 s 10 = Ok (t, overflown) ∧
            n = if overflown then 1%nat else 0%nat)) ∧
    (∀ fuel' key (t t' : ADS_set.t) n,
       ADS_set.add int_hash 5 fuel' key false t = Ok (t', n) → n = 0%nat).
Proof.
  split_and!; [lia | lia | by vm_compute |].
  apply (split_once_per_overflow int_hash 5); [lia | lia | by vm_compute].
Defined.

Lemma split_at_round_end_witness :
  0 < 5 ∧ (3 ≤ 3)%nat ∧
  Z.of_nat (length [0; 2; 4; 6; 8; 10; 12; 16; 20; 14; 18])
    < ADS_set.max_keys ∧
  ADS_set.from_list int_hash 5 3 [0; 2; 4; 6; 8; 10; 12; 16; 20; 14; 18]
    = Ok (round_end_table, 2%nat) ∧
  (22 ∉ [0; 2; 4; 6; 8; 10; 12; 16; 20; 14; 18]) ∧
  ADS_set.add_to_bucket int_hash 5 round_end_table 22
    = Ok (ADS_set.put int_hash 5 round_end_table 22, true) ∧
  ADS_set.table_split_index round_end_table
    = 2 ^ ADS_set.split_round round_end_table ∧
  (∃ t' values size,
     ADS_set.split_detach (ADS_set.put int_hash 5 round_end_table 22)
       = Ok (t', values, size) ∧
     ADS_set.split_round t' = ADS_set.split_round round_end_table + 1 ∧
     ADS_set.table_split_index t' = 0 ∧
     ∀ key, key ∈ values →
       ADS_set.bucket_at int_hash
         (ADS_set.put int_hash 5 round_end_table 22) key
         = Ok (2 ^ ADS_set.split_round round_end_table) ∧
       ADS_set.bucket_at int_hash t' key
         = Ok (2 ^ ADS_set.split_round round_end_table)) ∧
  ADS_set.split int_hash 5 (Nat.pred 3)
    (ADS_set.put int_hash 5 round_end_table 22) =
  Ok ({| ADS_set.split_round := ADS_set.split_round round_end_table + 1;
         ADS_set.table_split_index := 0;
         ADS_set.table_size :=
           ADS_set.table_size (ADS_set.put int_hash 5 round_end_table 22);
         ADS_set.table_items_size :=
           ADS_set.table_items_size
             (ADS_set.put int_hash 5 round_end_table 22);
         ADS_set.table :=
           ADS_set.table (ADS_set.put int_hash 5 round_end_table 22) |},
      1%nat).
Proof.
  assert (22 ∉ [0; 2; 4; 6; 8; 10; 12; 16; 20; 14; 18]) as Hk
    by (apply (bool_decide_unpack _); by vm_compute).
  split; [lia|]. split; [lia|]. split; [by vm_compute|].
  split; [by vm_compute|]. split; [done|]. split; [by vm_compute|].
  split; [by vm_compute|].
  apply (split_at_round_end int_hash 5 ltac:(lia) 3
           [0; 2; 4; 6; 8; 10; 12; 16; 20; 14; 18] 22
           round_end_table (ADS_set.put int_hash 5 round_end_table 22)
           2%nat);
    [lia | by vm_compute | by vm_compute | done | by vm_compute
    | by vm_compute].
Defined.

Lemma items_wrap_in_split_witness :
  0 < 5 ∧ (3 ≤ 3)%nat ∧
  Z.of_nat (length [0; 2; 4; 6; 8]) < ADS_set.max_keys ∧
  ADS_set.from_list int_hash 5 3 [0; 2; 4; 6; 8]
    = Ok (one_bucket_table, 0%nat) ∧
  (10 ∉ [0; 2; 4; 6; 8]) ∧
  ADS_set.add_to_bucket int_hash 5 one_bucket_table 10
    = Ok (ADS_set.put int_hash 5 one_bucket_table 10, true) ∧
  Forall (λ key,
      ADS_set.bucket_at int_hash one_bucket_table key =
        Ok (ADS_set.table_split_index one_bucket_table))
    (10 :: [0; 2; 4; 6; 8]) ∧
  ADS_set.table_items_size (ADS_set.put int_hash 5 one_bucket_table 10)
    = ADS_set.table_items_size one_bucket_table ∧
  ∃ t' values t'' s',
    ADS_set.split_detach (ADS_set.put int_hash 5 one_bucket_table 10) =
      Ok (t', values,
          ADS_set.table_items_size
            (ADS_set.put int_hash 5 one_bucket_table 10) + 1) ∧
    ADS_set.table_items_size t' = 2 ^ 64 - 1 ∧
    (∀ i, (i ≤ length values)%nat →
       ∃ u,
         ADS_set.split_reinsert
           (λ key, ADS_set.add int_hash 5 (Nat.pred (Nat.pred 3)) key false)
           values (Z.of_nat i) t' = Ok (u, 0%nat) ∧
         ADS_set.table_items_size u = wrap (2 ^ 64 - 1 + Z.of_nat i)) ∧
    ADS_set.split_reinsert
      (λ key, ADS_set.add int_hash 5 (Nat.pred (Nat.pred 3)) key false)
      values
      (ADS_set.table_items_size
         (ADS_set.put int_hash 5 one_bucket_table 10) + 1)
      t' = Ok (t'', 0%nat) ∧
    ADS_set.table_items_size t'' =
      ADS_set.table_items_size one_bucket_table ∧
    ADS_set.split int_hash 5 (Nat.pred 3)
      (ADS_set.put int_hash 5 one_bucket_table 10) = Ok (t'', 1%nat) ∧
    s' = ADS_set.set_items t'' (wrap (ADS_set.table_items_size t'' + 1)) ∧
    ADS_set.add int_hash 5 3 10 true one_bucket_table = Ok (s', 1%nat) ∧
    ADS_set.from_list int_hash 5 3 ([0; 2; 4; 6; 8] ++ [10])
      = Ok (s', (0 + 1)%nat) ∧
    ADS_set.size s' = ADS_set.size one_bucket_table + 1 ∧
    ADS_set.size s' =
      Z.of_nat (length (remove_dups ([0; 2; 4; 6; 8] ++ [10]))) ∧
    ADS_set.size s' =
      Z.of_nat
        (length (concat ((λ b, concat (Bucket.slices b)) <$>
                         ADS_set.table s'))).
Proof.
  assert (10 ∉ [0; 2; 4; 6; 8]) as Hk
    by (apply (bool_decide_unpack _); by vm_compute).
  assert (Forall (λ key,
      ADS_set.bucket_at int_hash one_bucket_table key =
        Ok (ADS_set.table_split_index one_bucket_table))
    (10 :: [0; 2; 4; 6; 8])) as Hall
    by (repeat constructor; by vm_compute).
  split; [lia|]. split; [lia|]. split; [by vm_compute|].
  split; [by vm_compute|]. split; [done|]. split; [by vm_compute|].
  split; [done|].
  apply (items_wrap_in_split int_hash 5 ltac:(lia) 3
           [0; 2; 4; 6; 8] 10 one_bucket_table
           (ADS_set.put int_hash 5 one_bucket_table 10) 0%nat);
    [lia | by vm_compute | by vm_compute | done | by vm_compute | done].
Defined.

Lemma initializer_batch_split_witness :
  (3 ≤ 3)%nat ∧
  ∃ s n, ADS_set.from_list int_hash 5 3 [1; 2; 3; 4; 5; 6] = Ok (s, n) ∧
    n = (if bool_decide
              (Forall (λ key, int_hash key mod 2 = int_hash 6 mod 2)
                 [1; 2; 3; 4; 5])
         then 1%nat else 0%nat) ∧
    ADS_set.split_round s = 1 ∧
    ADS_set.table_split_index s = Z.of_nat n.
Proof.
  split; [lia|]. apply (initializer_batch_split int_hash 3). lia.
Defined.

(** * Further properties of the buckets *)

Section MoreBucketFacts.
Context {Key : Type} `{EqDecision Key}.
Variable N : Z.
Hypothesis N_pos : 0 < N.

Local Abbreviation bucket := (@Bucket.t Key).

Lemma bucket_add_all_spec (ks : list Key) :
  ∀ b : bucket,
  Bucket.wf N b →
  Z.of_nat (length (Bucket.keys b)) + Z.of_nat (length ks) < 2 ^ 64 →
  bucket_add_all N b ks = Ok (foldl (Bucket.put N) b ks).
Proof.
  induction ks as [|k ks IH]; intros b Hb Hlen; [done|].
  simpl in Hlen. cbn [bucket_add_all foldl].
  rewrite (add_spec N N_pos b k Hb) by lia. cbn [mbind result_bind].
  apply IH; [by apply wf_put|].
  rewrite (keys_put N b k Hb), length_app. simpl. lia.
Qed.

Lemma bucket_add_all_new (ks : list Key) (b : bucket) :
  Z.of_nat (length ks) < 2 ^ 64 →
  bucket_add_all N Bucket.new ks = Ok b →
  b = {| Bucket.slices := Bucket.pack N ks;
         Bucket.size := Z.of_nat (length ks) |} ∧
  Bucket.wf N b ∧ Bucket.keys b = ks.
Proof.
  intros Hlen Hrun.
  rewrite bucket_add_all_spec in Hrun; [|apply wf_new|simpl; lia].
  rewrite foldl_put_new in Hrun. injection Hrun as <-.
  split_and!; [done | | apply pack_concat].
  split; simpl; unfold Bucket.keys; simpl; by rewrite pack_concat.
Qed.

(** The chain [add] builds: full slices followed by a tail slice. *)
Lemma pack_shape (ks : list Key) :
  ∃ fulls tl,
    Bucket.pack N ks = fulls ++ [tl] ∧
    Forall (λ sl, Z.of_nat (length sl) = N) fulls ∧
    Z.of_nat (length tl) ≤ N ∧
    (ks ≠ [] → tl ≠ []).
Proof.
  induction ks as [|k ks IH] using rev_ind.
  - exists [], []. split_and!; [done | done | simpl; lia | done].
  - destruct IH as (fulls & tl & Hp & Hf & Htl & _).
    rewrite pack_snoc, Hp, pack_step_snoc. case_bool_decide as Hfull.
    + exists (fulls ++ [tl]), [k]. split_and!.
      * by rewrite <- app_assoc.
      * apply Forall_app. split; [done|]. apply Forall_singleton. lia.
      * simpl. lia.
      * done.
    + exists fulls, (tl ++ [k]). split_and!; [done | done | |].
      * rewrite length_app. simpl. lia.
      * intros _. by destruct tl.
Qed.

Lemma length_concat_fulls (fulls : list (list Key)) :
  Forall (λ sl, Z.of_nat (length sl) = N) fulls →
  Z.of_nat (length (concat fulls)) = N * Z.of_nat (length fulls).
Proof.
  induction 1 as [|sl fulls Hsl _ IH]; simpl; [lia|].
  rewrite length_app. lia.
Qed.

(** X1. Adding any keys, one after the other, to a fresh bucket never
    faults; the bucket then holds the keys in the order of the calls,
    [size] counts them, every slice but the tail holds exactly [N] keys,
    and the tail holds between 1 and [N] keys unless the bucket is
    empty. *)
Theorem bucket_add_all_shape (ks : list Key) :
  Z.of_nat (length ks) < 2 ^ 64 →
  ∃ b fulls tl,
    bucket_add_all N Bucket.new ks = Ok b ∧
    Bucket.slices b = fulls ++ [tl] ∧
    concat (Bucket.slices b) = ks ∧
    Bucket.size b = Z.of_nat (length ks) ∧
    Forall (λ sl, Z.of_nat (length sl) = N) fulls ∧
    Z.of_nat (length tl) ≤ N ∧
    (ks ≠ [] → tl ≠ []).
Proof.
  intros Hlen. destruct (pack_shape ks) as (fulls & tl & Hp & Hf & Htl & Hne).
  exists {| Bucket.slices := Bucket.pack N ks;
            Bucket.size := Z.of_nat (length ks) |}, fulls, tl.
  split_and!; try done.
  - rewrite bucket_add_all_spec; [|apply wf_new|simpl; lia].
    by rewrite foldl_put_new.
  - apply pack_concat.
Qed.

(** X2. After [n] calls of [add] on a fresh bucket the next call reports
    an overflow exactly when [n] is a positive multiple of [N]. *)
Theorem bucket_add_overflow_multiple (ks : list Key) key (b : bucket) :
  Z.of_nat (length ks) + 1 < 2 ^ 64 →
  bucket_add_all N Bucket.new ks = Ok b →
  ∃ b', Bucket.add N b key =
          Ok (b', bool_decide (0 < Z.of_nat (length ks) ∧
                                 Z.of_nat (length ks) mod N = 0)) ∧
        concat (Bucket.slices b') = ks ++ [key].
Proof.
  intros Hlen Hrun.
  destruct (bucket_add_all_new ks b) as (Hb & Hwf & Hkeys); [lia | done |].
  rewrite (add_spec N N_pos b key Hwf) by (rewrite Hkeys; lia).
  exists (Bucket.put N b key). split.
  - f_equal. f_equal.
    destruct (pack_shape ks) as (fulls & tl & Hp & Hf & Htl & Hne).
    unfold Bucket.full. rewrite Hb. simpl. rewrite Hp, last_snoc.
    pose proof (pack_concat N ks) as Hc. rewrite Hp, concat_app in Hc.
    simpl in Hc. rewrite app_nil_r in Hc.
    assert (Z.of_nat (length ks) =
            N * Z.of_nat (length fulls) + Z.of_nat (length tl)) as Hsum.
    { pose proof (length_concat_fulls fulls Hf) as Hfl.
      assert (length ks = length (concat fulls) + length tl)%nat as Hk
        by (rewrite <- Hc; apply length_app).
      unfold Bucket.Slice in *. rewrite <- Hfl. lia. }
    unfold Bucket.Slice in *.
    destruct (decide (N ≤ Z.of_nat (length tl))) as [Hfull | Hfree].
    + rewrite bool_decide_eq_true_2 by done.
      rewrite bool_decide_eq_true_2; [done|]. split; [lia|].
      replace (Z.of_nat (length ks)) with ((Z.of_nat (length fulls) + 1) * N)
        by lia.
      apply Z_mod_mult.
    + rewrite bool_decide_eq_false_2 by done.
      rewrite bool_decide_eq_false_2; [done|]. intros [Hpos Hmod].
      rewrite Hsum, Z.add_comm, Z.mul_comm, Z_mod_plus_full in Hmod.
      rewrite Z.mod_small in Hmod by lia.
      assert (tl = []) as -> by (by destruct tl).
      assert (ks ≠ []) as Hks by (intros ->; simpl in Hpos; lia).
      by apply Hne.
  - fold (Bucket.keys (Bucket.put N b key)).
    by rewrite (keys_put N b key Hwf), Hkeys.
Qed.

Lemma locate_values_Some (values : list Key) key :
  ∀ i0 i, Bucket.locate_values values key i0 = Some i →
  ∃ j, i = (i0 + j)%nat ∧ values !! j = Some key ∧ key ∉ take j values.
Proof.
  induction values as [|v values IH]; intros i0 i; simpl; [done|].
  destruct (decide (v = key)) as [->|Hne].
  - intros [= <-]. exists 0%nat. split_and!; [lia | done |].
    simpl. apply not_elem_of_nil.
  - intros Hl. destruct (IH _ _ Hl) as (j & -> & Hj & Hnot).
    exists (S j). split_and!; [lia | done |].
    simpl. apply not_elem_of_cons. done.
Qed.

Lemma locate_chain_Some (chain : list (list Key)) key :
  ∀ n0 n i, Bucket.locate_chain chain key n0 = Some (n, i) →
  ∃ m sl, n = (n0 + m)%nat ∧ chain !! m = Some sl ∧ sl !! i = Some key ∧
    (key ∉ take i sl) ∧ key ∉ concat (take m chain).
Proof.
  induction chain as [|slice chain IH]; intros n0 n i; simpl; [done|].
  destruct (Bucket.locate_values slice key 0) as [i'|] eqn:Hv.
  - intros [= <- <-].
    destruct (locate_values_Some _ _ _ _ Hv) as (j & -> & Hj & Hnot).
    exists 0%nat, slice. split_and!; [lia | done | done | done |].
    simpl. apply not_elem_of_nil.
  - intros Hl. destruct (IH _ _ _ Hl) as (m & sl & -> & Hm & Hi & Hn1 & Hn2).
    exists (S m), sl. split_and!; [lia | done | done | done |].
    simpl. apply not_elem_of_app. split; [|done].
    by apply locate_values_None in Hv.
Qed.

(** X3. [Bucket::locate] finds a key exactly when the bucket holds it; the
    position it returns is that of the key, and the key occurs neither
    earlier in that slice nor in an earlier slice of the chain. *)
Theorem bucket_locate_position (b : bucket) key :
  match Bucket.locate b key with
  | Some (n, i) =>
      key ∈ concat (Bucket.slices b) ∧
      ∃ sl, Bucket.slices b !! n = Some sl ∧ sl !! i = Some key ∧
            (key ∉ take i sl) ∧ key ∉ concat (take n (Bucket.slices b))
  | None => key ∉ concat (Bucket.slices b)
  end.
Proof.
  destruct (Bucket.locate b key) as [[n i]|] eqn:Hl.
  - destruct (locate_chain_Some _ _ _ _ _ Hl)
      as (m & sl & -> & Hm & Hi & Hn1 & Hn2).
    split; [|by exists sl].
    apply elem_of_concat. exists sl. split.
    + by eapply list_elem_of_lookup_2.
    + by eapply list_elem_of_lookup_2.
  - by apply locate_chain_None in Hl.
Qed.

(** X4. A key added to a bucket is found by [locate] afterwards, and the
    call changes for no other key whether [locate] finds it. *)
Theorem bucket_add_then_locate (ks : list Key) key (b : bucket) :
  Z.of_nat (length ks) + 1 < 2 ^ 64 →
  bucket_add_all N Bucket.new ks = Ok b →
  ∃ b' overflown,
    Bucket.add N b key = Ok (b', overflown) ∧
    is_Some (Bucket.locate b' key) ∧
    ∀ key', key' ≠ key →
      (is_Some (Bucket.locate b' key') ↔ is_Some (Bucket.locate b key')).
Proof.
  intros Hlen Hrun.
  destruct (bucket_add_all_new ks b) as (Hb & Hwf & Hkeys); [lia | done |].
  rewrite (add_spec N N_pos b key Hwf) by (rewrite Hkeys; lia).
  eexists _, _. split; [done|].
  assert (∀ (c : bucket) k, is_Some (Bucket.locate c k) ↔ k ∈ Bucket.keys c)
    as Hloc.
  { intros c k. rewrite <- not_eq_None_Some, locate_None.
    destruct (decide (k ∈ Bucket.keys c)); tauto. }
  split.
  - apply Hloc. rewrite (keys_put N b key Hwf).
    apply elem_of_app. right. apply list_elem_of_here.
  - intros key' Hne. rewrite !Hloc, (keys_put N b key Hwf), elem_of_app.
    rewrite list_elem_of_singleton. tauto.
Qed.

(** X5. [copy] into a buffer of [size] cells writes the keys of the bucket
    in the order of their insertion; [clear] leaves a bucket without keys;
    and adding the copied keys back to the cleared bucket, in order,
    rebuilds the bucket as it was, slice by slice. *)
Theorem bucket_copy_clear_rebuild (ks : list Key) (b : bucket) :
  Z.of_nat (length ks) < 2 ^ 64 →
  bucket_add_all N Bucket.new ks = Ok b →
  Bucket.copy b (Bucket.size b) = Ok ks ∧
  Bucket.size (Bucket.clear b) = 0 ∧
  (∀ key, Bucket.locate (Bucket.clear b) key = None) ∧
  bucket_add_all N (Bucket.clear b) ks = Ok b.
Proof.
  intros Hlen Hrun.
  destruct (bucket_add_all_new ks b) as (Hb & Hwf & Hkeys); [lia | done |].
  split_and!; [| done | done |].
  - by rewrite (copy_spec N b Hwf), Hkeys.
  - by rewrite <- Hrun.
Qed.

End MoreBucketFacts.

(** * Further properties of the table *)

Section MoreTableFacts.
Context {Key : Type} `{EqDecision Key}.
Variable hash : Key → Z.
Variable N : Z.
Hypothesis N_pos : 0 < N.

Import ADS_set.

Local Abbreviation state := (@ADS_set.t Key).

(** What the invariant gives for a table built from a list of keys. *)
Lemma reached fuel (l : list Key) (s : state) n :
  (3 ≤ fuel)%nat → Z.of_nat (length l) ≤ max_keys →
  from_list hash N fuel l = Ok (s, n) →
  Inv hash N s ∧ (∀ k, k ∈ stored s ↔ k ∈ l) ∧
  nkeys s ≤ Z.of_nat (length l) ∧ split_round s ≤ 29.
Proof.
  intros Hf Hl Hrun. pose proof (from_list_inv hash N N_pos fuel l s n Hf Hl Hrun) as ->.
  destruct (from_list_spec hash N N_pos fuel l Hf Hl) as (_ & Hinv & Hmem & Hle).
  split_and!; try done. unfold max_keys in Hl.
  apply (Inv_round hash N); [done | lia].
Qed.

Lemma potential_added (s : state) key :
  Inv hash N s → nkeys s + 4 ≤ 2 ^ 30 →
  potential (added hash N s key) =
    potential s +
    Z.of_nat (if bool_decide (key ∈ stored s) then 0
              else if full_at hash N s key then 1 else 0)%nat.
Proof.
  intros [Hs Hit Hp] Hn. unfold added. case_bool_decide as Hk; [lia|].
  destruct (full_at hash N s key) eqn:Hf.
  - pose proof (wf_put_table hash N s key Hs Hk) as Hwp.
    destruct (resplit_spec hash N _ Hwp) as (_ & _ & Hpot & _).
    change (potential (resplit hash N (put hash N s key)) =
            potential s + Z.of_nat 1).
    rewrite Hpot, potential_put. lia.
  - unfold potential.
    pose proof (store_fields hash N s key) as (-> & -> & _). lia.
Qed.

Lemma insert_count fuel (keys : list Key) :
  ∀ s : state,
  Inv hash N s → nkeys s + Z.of_nat (length keys) + 3 ≤ 2 ^ 30 →
  ∃ n, insert hash N (S (S (S fuel))) keys s =
         Ok (inserted hash N s keys, n) ∧
       potential (inserted hash N s keys) = potential s + Z.of_nat n.
Proof.
  induction keys as [|key keys IH]; intros s Hs Hn.
  - exists 0%nat. split; [done|]. simpl. lia.
  - simpl in Hn.
    destruct (added_spec hash N s key Hs) as [Hs' _]; [lia|].
    pose proof (nkeys_added hash N s key Hs) as Hnk.
    pose proof (potential_added s key Hs) as Hpa.
    destruct (IH (added hash N s key) Hs') as (n & Hrun & Hpot).
    { rewrite Hnk by lia. case_bool_decide; lia. }
    change (insert hash N (S (S (S fuel))) (key :: keys) s) with
      ('(s, n) ← add hash N (S (S (S fuel))) key true s;
       '(s, m) ← insert hash N (S (S (S fuel))) keys s;
       Ok (s, (n + m)%nat)).
    rewrite (add_spec_table hash N N_pos) by (done || lia).
    cbn [mbind result_bind]. rewrite Hrun. cbn [mbind result_bind].
    eexists. split; [done|].
    unfold inserted in *. simpl. rewrite Hpot, Hpa by lia. lia.
Qed.

(** X6. Two calls of [insert] in a row are one call on the concatenated
    range: same table, same fault if any, and the numbers of splits add
    up. *)
Theorem insert_concat fuel (l1 l2 : list Key) (s : state) :
  insert hash N fuel (l1 ++ l2) s =
    '(s1, n1) ← insert hash N fuel l1 s;
    '(s2, n2) ← insert hash N fuel l2 s1;
    Ok (s2, (n1 + n2)%nat).
Proof. apply insert_app. Qed.

(** X7. Inserting keys that the table already holds changes nothing: the
    table, with its split state and every bucket, is the same afterwards,
    and [split()] is not entered. *)
Theorem insert_stored_noop fuel (l l' : list Key) (s : state) n :
  (3 ≤ fuel)%nat → Z.of_nat (length l) ≤ max_keys →
  from_list hash N fuel l = Ok (s, n) →
  Forall (λ k, k ∈ l) l' →
  insert hash N fuel l' s = Ok (s, 0%nat).
Proof.
  intros Hf Hl Hrun Hall.
  destruct (reached fuel l s n Hf Hl Hrun) as ([Hs _ _] & Hmem & _ & Hr).
  destruct fuel as [|fuel]; [lia|].
  induction Hall as [|k l' Hk _ IH]; [done|].
  cbn [insert]. rewrite (add_present hash N) by (done || by apply Hmem).
  cbn [mbind result_bind]. by rewrite IH.
Qed.


Lemma sum_sizes (tb : list (@Bucket.t Key)) :
  (∀ i b, tb !! i = Some b →
     Bucket.size b = Z.of_nat (length (Bucket.keys b))) →
  foldr (λ b acc, Bucket.size b + acc) 0 tb =
    Z.of_nat (length (concat (Bucket.keys <$> tb))).
Proof.
  induction tb as [|b tb IH]; intros Hsz; [done|].
  simpl. rewrite length_app, IH.
  - rewrite (Hsz 0%nat b eq_refl). by rewrite Nat2Z.inj_add.
  - intros i b' Hi. by apply (Hsz (S i)).
Qed.

(** X9. In a table built by insertions no key is stored twice, in one
    bucket or in two; the [size] member of every bucket is the number of
    keys in its slices; and [table_items_size] is the sum of the [size]
    members of the buckets. *)
Theorem no_duplicates_and_sizes fuel (l : list Key) (s : state) n :
  (3 ≤ fuel)%nat → Z.of_nat (length l) ≤ max_keys →
  from_list hash N fuel l = Ok (s, n) →
  NoDup (concat ((λ b, concat (Bucket.slices b)) <$> table s)) ∧
  (∀ i b, table s !! i = Some b →
     Bucket.size b = Z.of_nat (length (concat (Bucket.slices b)))) ∧
  table_items_size s = foldr (λ b acc, Bucket.size b + acc) 0 (table s).
Proof.
  intros Hf Hl Hrun.
  destruct (reached fuel l s n Hf Hl Hrun) as ([Hs Hit _] & _).
  assert (∀ i b, table s !! i = Some b →
            Bucket.size b = Z.of_nat (length (Bucket.keys b))) as Hsz.
  { intros i b Hi. apply (Bucket.wf_size N). by eapply wf_buckets. }
  split_and!; [apply Hs | done |].
  by rewrite Hit, (sum_sizes _ Hsz).
Qed.

(** X10. The split state counts the splits: after [n] entries into
    [split()] the table has [2^split_round + split_round +
    table_split_index = 3 + n], and there are never more splits than
    distinct keys. *)
Theorem split_count_potential fuel (l : list Key) (s : state) n :
  (3 ≤ fuel)%nat → Z.of_nat (length l) ≤ max_keys →
  from_list hash N fuel l = Ok (s, n) →
  2 ^ split_round s + split_round s + table_split_index s = 3 + Z.of_nat n ∧
  (n ≤ length (remove_dups l))%nat.
Proof.
  intros Hf Hl Hrun.
  destruct (reached fuel l s n Hf Hl Hrun) as (Hinv & Hmem & _).
  unfold max_keys in Hl. destruct fuel as [|[|[|fuel]]]; [lia..|].
  destruct (insert_count fuel l initial (Inv_initial hash N))
    as (n' & Hrun' & Hpot); [unfold nkeys; simpl; lia|].
  unfold from_list in Hrun. rewrite new_spec in Hrun.
  cbn [mbind result_bind] in Hrun. rewrite Hrun' in Hrun.
  injection Hrun as <- <-.
  change (potential (inserted hash N initial l) = 3 + Z.of_nat n') in Hpot.
  split; [done|].
  pose proof (inv_potential _ _ _ Hinv) as Hp.
  rewrite (stored_remove_dups (inserted hash N initial l) l) in Hp;
    [lia | apply Hinv | done].
Qed.


(** X12. A table built from at most [N] keys has never split: [split()]
    was not entered, the split state is the initial one with two buckets,
    and every bucket consists of its head slice alone. *)
Theorem no_split_up_to_capacity fuel (l : list Key) :
  (3 ≤ fuel)%nat → Z.of_nat (length l) ≤ N →
  Z.of_nat (length l) ≤ max_keys →
  ∃ s, from_list hash N fuel l = Ok (s, 0%nat) ∧
    split_round s = 1 ∧ table_split_index s = 0 ∧ table_size s = 2 ∧
    ∀ i b, table s !! i = Some b →
      Bucket.slices b = [concat (Bucket.slices b)].
Proof.
  intros Hf HN Hl. unfold max_keys in Hl.
  destruct fuel as [|[|[|fuel]]]; [lia..|].
  destruct (insert_quiet hash N N_pos fuel l initial (Inv_initial hash N))
    as (Hrun & Hr & Hi); [unfold nkeys; simpl; lia..|].
  assert (from_list hash N (S (S (S fuel))) l =
          Ok (inserted hash N initial l, 0%nat)) as Hrun'.
  { unfold from_list. by rewrite new_spec. }
  destruct (reached (S (S (S fuel))) l (inserted hash N initial l) 0%nat) as ([Hs _ _] & _ & Hle & _);
    [lia | unfold max_keys; lia | done |].
  exists (inserted hash N initial l). split_and!; [done | done | done | |].
  - rewrite (wf_size _ _ _ Hs), Hi, Hr. done.
  - intros i b Hb. pose proof (wf_buckets _ _ _ Hs i b Hb) as Hwb.
    pose proof (keys_le_nkeys _ i b Hb) as Hkb.
    rewrite (Bucket.wf_slices N b Hwb) at 1.
    apply pack_short. etrans; [exact Hkb|]. lia.
Qed.

(** X14. The two hash functions agree modulo [2^split_round]: [g(key)] is
    [h(key)] or [h(key) + 2^split_round], and [h(key)] is below
    [2^split_round]. *)
Theorem hash_next_round (s : state) key :
  0 ≤ split_round s ≤ 29 →
  ∃ a b, h hash s key = Ok a ∧ g hash s key = Ok b ∧
    0 ≤ a < 2 ^ split_round s ∧
    (b = a ∨ b = a + 2 ^ split_round s) ∧
    a = b mod 2 ^ split_round s.
Proof.
  intros Hr. unfold h, g.
  rewrite (wrap_small (split_round s + 1)) by lia.
  rewrite !shl_int_pow by lia. cbn [mbind result_bind].
  pose proof (pow2_pos (split_round s) ltac:(lia)) as Hpos.
  pose proof (Z.mod_pos_bound (hash key) (2 ^ split_round s) Hpos) as Hb.
  pose proof (mod_double (hash key) (2 ^ split_round s) Hpos) as Hd.
  rewrite <- pow2_succ in Hd by lia.
  eexists _, _. split_and!; [done | done | lia | lia | tauto |].
  destruct Hd as [-> | ->].
  - by rewrite Z.mod_mod by lia.
  - rewrite <- (Z.mul_1_l (2 ^ split_round s)) at 3.
    rewrite Z_mod_plus_full. by rewrite Z.mod_mod by lia.
Qed.








Lemma copy_loop_fault (old : list (@Bucket.t Key)) (cnt : nat) :
  ∀ (i : nat) (new : list (@Bucket.t Key)),
  (i ≤ length new)%nat → (length new < i + cnt)%nat →
  (i + cnt ≤ length old)%nat →
  for_loop (λ i new_table,
      b ← of_option OutOfBounds (old !! i);
      if bool_decide (i < length new_table)%nat
      then Ok (<[i := b]> new_table)
      else Fault OutOfBounds)
    i cnt new = Fault OutOfBounds.
Proof.
  induction cnt as [|cnt IH]; intros i new Hi Hlt Hold; [lia|].
  cbn [for_loop].
  destruct (lookup_lt_is_Some_2 old i) as [b Hb]; [lia|].
  rewrite Hb. cbn [of_option mbind result_bind].
  case_bool_decide as Hin; [|done].
  cbn [mbind result_bind]. apply IH; rewrite ?length_insert; lia.
Qed.

(** X16. [reserve] with a size not below the current one returns: the
    buckets keep their indices and contents, the new indices hold fresh
    buckets, the split state and the key count are as before, and
    [bucket_at] and [locate] answer as before. *)
Theorem reserve_extends (s : state) m :
  Z.of_nat (length (table s)) = table_size s → table_size s ≤ m →
  ∃ s', reserve s m = Ok s' ∧
    table_size s' = m ∧ Z.of_nat (length (table s')) = m ∧
    split_round s' = split_round s ∧
    table_split_index s' = table_split_index s ∧
    table_items_size s' = table_items_size s ∧
    (∀ i b, table s !! i = Some b → table s' !! i = Some b) ∧
    (∀ i, (length (table s) ≤ i)%nat → Z.of_nat i < m →
       table s' !! i = Some Bucket.new) ∧
    ∀ key index,
      bucket_at hash s key = Ok index → 0 ≤ index < table_size s →
      bucket_at hash s' key = Ok index ∧
      locate hash s' key = locate hash s key.
Proof.
  intros Hlen Hm. rewrite (reserve_spec s m Hlen Hm).
  eexists. split; [done|].
  assert (∀ i b, table s !! i = Some b →
            (table s ++ replicate (Z.to_nat m - length (table s)) Bucket.new)
              !! i = Some b) as Hkeep.
  { intros i b Hb. rewrite lookup_app_l by (by eapply lookup_lt_Some). done. }
  split_and!; [done | | done | done | done | done | |].
  - simpl. rewrite length_app, length_replicate. lia.
  - intros i Hi Him. simpl. rewrite lookup_app_r by lia.
    apply lookup_replicate_2. lia.
  - intros key index Hat Hidx.
    assert (∀ u : state, split_round u = split_round s →
              table_split_index u = table_split_index s →
              bucket_at hash u key = bucket_at hash s key) as Hsame.
    { intros u Hu1 Hu2. unfold bucket_at, h, g. by rewrite Hu1, Hu2. }
    unfold locate.
    match goal with
    | |- context [bucket_at hash ?u key] =>
        rewrite !(Hsame u eq_refl eq_refl)
    end.
    rewrite Hat. split; [done|].
    cbn [mbind result_bind]. unfold table_at. cbn [table].
    destruct (lookup_lt_is_Some_2 (table s) (Z.to_nat index)) as [b Hb];
      [lia|].
    by rewrite (Hkeep _ _ Hb), Hb.
Qed.

(** X17. [reserve] has no guard against a smaller size: with a new size
    below the current one, [copy] writes past the end of the new array. *)
Theorem reserve_shrink_faults (s : state) m :
  Z.of_nat (length (table s)) = table_size s → 0 ≤ m < table_size s →
  reserve s m = Fault OutOfBounds.
Proof.
  intros Hlen Hm. unfold reserve, copy.
  rewrite copy_loop_fault; [done | lia | |].
  - rewrite length_replicate. lia.
  - lia.
Qed.

(** X18. [empty()] is true exactly for a table built from no keys. *)
Theorem empty_iff_no_keys fuel (l : list Key) (s : state) n :
  (3 ≤ fuel)%nat → Z.of_nat (length l) ≤ max_keys →
  from_list hash N fuel l = Ok (s, n) →
  empty s = bool_decide (l = []).
Proof.
  intros Hf Hl Hrun.
  destruct (reached fuel l s n Hf Hl Hrun) as ([_ Hit _] & Hmem & _).
  unfold empty. rewrite Hit. unfold nkeys. destruct l as [|k l].
  - destruct (stored s) as [|k ks] eqn:Hst; [done|].
    exfalso. apply (not_elem_of_nil k), Hmem. apply list_elem_of_here.
  - rewrite (bool_decide_eq_false_2 (k :: l = [])) by done.
    apply bool_decide_eq_false_2.
    pose proof (proj2 (Hmem k) (list_elem_of_here _ _)) as Hk.
    destruct (stored s); [by apply not_elem_of_nil in Hk | simpl; lia].
Qed.


End MoreTableFacts.

(** * Instances of the further properties *)

Lemma bucket_add_all_shape_witness :
  0 < 5 ∧ Z.of_nat (length [1; 2; 3; 4; 5; 6; 7]) < 2 ^ 64 ∧
  ∃ b fulls tl,
    bucket_add_all 5 Bucket.new [1; 2; 3; 4; 5; 6; 7] = Ok b ∧
    Bucket.slices b = fulls ++ [tl] ∧
    concat (Bucket.slices b) = [1; 2; 3; 4; 5; 6; 7] ∧
    Bucket.size b = Z.of_nat (length [1; 2; 3; 4; 5; 6; 7]) ∧
    Forall (λ sl, Z.of_nat (length sl) = 5) fulls ∧
    Z.of_nat (length tl) ≤ 5 ∧ ([1; 2; 3; 4; 5; 6; 7] ≠ [] → tl ≠ []).
Proof.
  split; [lia|]. split; [by vm_compute|].
  apply (bucket_add_all_shape 5); [lia | by vm_compute].
Defined.

Lemma bucket_add_overflow_multiple_witness :
  0 < 5 ∧ Z.of_nat (length [1; 2; 3; 4; 5]) + 1 < 2 ^ 64 ∧
  bucket_add_all 5 Bucket.new [1; 2; 3; 4; 5] =
    Ok {| Bucket.slices := [[1; 2; 3; 4; 5]]; Bucket.size := 5 |} ∧
  ∃ b',
    Bucket.add 5 {| Bucket.slices := [[1; 2; 3; 4; 5]]; Bucket.size := 5 |} 6 =
      Ok (b', bool_decide (0 < Z.of_nat (length [1; 2; 3; 4; 5]) ∧
                           Z.of_nat (length [1; 2; 3; 4; 5]) mod 5 = 0)) ∧
    concat (Bucket.slices b') = [1; 2; 3; 4; 5] ++ [6].
Proof.
  split; [lia|]. split; [by vm_compute|]. split; [by vm_compute|].
  apply (bucket_add_overflow_multiple 5 ltac:(lia) [1; 2; 3; 4; 5] 6
           {| Bucket.slices := [[1; 2; 3; 4; 5]]; Bucket.size := 5 |});
    by vm_compute.
Defined.

Lemma bucket_add_then_locate_witness :
  0 < 5 ∧ Z.of_nat (length [1; 2; 3; 4; 5]) + 1 < 2 ^ 64 ∧
  bucket_add_all 5 Bucket.new [1; 2; 3; 4; 5] =
    Ok {| Bucket.slices := [[1; 2; 3; 4; 5]]; Bucket.size := 5 |} ∧
  ∃ b' overflown,
    Bucket.add 5 {| Bucket.slices := [[1; 2; 3; 4; 5]]; Bucket.size := 5 |} 6 =
      Ok (b', overflown) ∧
    is_Some (Bucket.locate b' 6) ∧
    ∀ key', key' ≠ 6 →
      (is_Some (Bucket.locate b' key') ↔
       is_Some (Bucket.locate
                  {| Bucket.slices := [[1; 2; 3; 4; 5]]; Bucket.size := 5 |}
                  key')).
Proof.
  split; [lia|]. split; [by vm_compute|]. split; [by vm_compute|].
  apply (bucket_add_then_locate 5 ltac:(lia) [1; 2; 3; 4; 5] 6
           {| Bucket.slices := [[1; 2; 3; 4; 5]]; Bucket.size := 5 |});
    by vm_compute.
Defined.

Lemma bucket_copy_clear_rebuild_witness :
  0 < 5 ∧ Z.of_nat (length [1; 2; 3; 4; 5; 6]) < 2 ^ 64 ∧
  bucket_add_all 5 Bucket.new [1; 2; 3; 4; 5; 6] =
    Ok {| Bucket.slices := [[1; 2; 3; 4; 5]; [6]]; Bucket.size := 6 |} ∧
  Bucket.copy {| Bucket.slices := [[1; 2; 3; 4; 5]; [6]]; Bucket.size := 6 |}
    (Bucket.size
       {| Bucket.slices := [[1; 2; 3; 4; 5]; [6]]; Bucket.size := 6 |}) =
    Ok [1; 2; 3; 4; 5; 6] ∧
  Bucket.size
    (Bucket.clear
       {| Bucket.slices := [[1; 2; 3; 4; 5]; [6]]; Bucket.size := 6 |}) = 0 ∧
  (∀ key,
     Bucket.locate
       (Bucket.clear
          {| Bucket.slices := [[1; 2; 3; 4; 5]; [6]]; Bucket.size := 6 |})
       key = None) ∧
  bucket_add_all 5
    (Bucket.clear
       {| Bucket.slices := [[1; 2; 3; 4; 5]; [6]]; Bucket.size := 6 |})
    [1; 2; 3; 4; 5; 6] =
    Ok {| Bucket.slices := [[1; 2; 3; 4; 5]; [6]]; Bucket.size := 6 |}.
Proof.
  split; [lia|]. split; [by vm_compute|]. split; [by vm_compute|].
  apply (bucket_copy_clear_rebuild 5 ltac:(lia) [1; 2; 3; 4; 5; 6]
           {| Bucket.slices := [[1; 2; 3; 4; 5]; [6]]; Bucket.size := 6 |});
    by vm_compute.
Defined.

Lemma insert_stored_noop_witness :
  0 < 5 ∧ (3 ≤ 3)%nat ∧
  Z.of_nat (length [0; 2; 4; 6; 8]) ≤ ADS_set.max_keys ∧
  ADS_set.from_list int_hash 5 3 [0; 2; 4; 6; 8] =
    Ok (one_bucket_table, 0%nat) ∧
  Forall (λ k, k ∈ [0; 2; 4; 6; 8]) [2; 0; 2] ∧
  ADS_set.insert int_hash 5 3 [2; 0; 2] one_bucket_table =
    Ok (one_bucket_table, 0%nat).
Proof.
  split; [lia|]. split; [lia|]. split; [by vm_compute|].
  split; [by vm_compute|].
  split; [apply (bool_decide_unpack _); by vm_compute|].
  apply (insert_stored_noop int_hash 5 ltac:(lia) 3 [0; 2; 4; 6; 8]
           [2; 0; 2] one_bucket_table 0%nat);
    [lia | by vm_compute | by vm_compute |].
  apply (bool_decide_unpack _); by vm_compute.
Defined.


Lemma no_duplicates_and_sizes_witness :
  0 < 5 ∧ (3 ≤ 3)%nat ∧
  Z.of_nat (length [0; 2; 4; 6; 8; 10; 12; 16; 20; 14; 18])
    ≤ ADS_set.max_keys ∧
  ADS_set.from_list int_hash 5 3 [0; 2; 4; 6; 8; 10; 12; 16; 20; 14; 18] =
    Ok (round_end_table, 2%nat) ∧
  NoDup (concat ((λ b, concat (Bucket.slices b)) <$>
                 ADS_set.table round_end_table)) ∧
  (∀ i b, ADS_set.table round_end_table !! i = Some b →
     Bucket.size b = Z.of_nat (length (concat (Bucket.slices b)))) ∧
  ADS_set.table_items_size round_end_table =
    foldr (λ b acc, Bucket.size b + acc) 0 (ADS_set.table round_end_table).
Proof.
  split; [lia|]. split; [lia|]. split; [by vm_compute|].
  split; [by vm_compute|].
  apply (no_duplicates_and_sizes int_hash 5 ltac:(lia) 3
           [0; 2; 4; 6; 8; 10; 12; 16; 20; 14; 18] round_end_table 2%nat);
    [lia | by vm_compute | by vm_compute].
Defined.

Lemma split_count_potential_witness :
  0 < 5 ∧ (3 ≤ 3)%nat ∧
  Z.of_nat (length [0; 2; 4; 6; 8; 10; 12; 16; 20; 14; 18])
    ≤ ADS_set.max_keys ∧
  ADS_set.from_list int_hash 5 3 [0; 2; 4; 6; 8; 10; 12; 16; 20; 14; 18] =
    Ok (round_end_table, 2%nat) ∧
  2 ^ ADS_set.split_round round_end_table +
    ADS_set.split_round round_end_table +
    ADS_set.table_split_index round_end_table = 3 + Z.of_nat 2 ∧
  (2 ≤ length (remove_dups [0; 2; 4; 6; 8; 10; 12; 16; 20; 14; 18]%Z))%nat.
Proof.
  split; [lia|]. split; [lia|]. split; [by vm_compute|].
  split; [by vm_compute|].
  apply (split_count_potential int_hash 5 ltac:(lia) 3
           [0; 2; 4; 6; 8; 10; 12; 16; 20; 14; 18] round_end_table 2%nat);
    [lia | by vm_compute | by vm_compute].
Defined.


Lemma no_split_up_to_capacity_witness :
  0 < 5 ∧ (3 ≤ 3)%nat ∧
  Z.of_nat (length [1; 2; 3; 4; 9]) ≤ 5 ∧
  Z.of_nat (length [1; 2; 3; 4; 9]) ≤ ADS_set.max_keys ∧
  ∃ s, ADS_set.from_list int_hash 5 3 [1; 2; 3; 4; 9] = Ok (s, 0%nat) ∧
    ADS_set.split_round s = 1 ∧ ADS_set.table_split_index s = 0 ∧
    ADS_set.table_size s = 2 ∧
    ∀ i b, ADS_set.table s !! i = Some b →
      Bucket.slices b = [concat (Bucket.slices b)].
Proof.
  split; [lia|]. split; [lia|]. split; [by vm_compute|].
  split; [by vm_compute|].
  apply (no_split_up_to_capacity int_hash 5 ltac:(lia) 3 [1; 2; 3; 4; 9]);
    [lia | by vm_compute | by vm_compute].
Defined.


Lemma hash_next_round_witness :
  0 ≤ ADS_set.split_round round_end_table ≤ 29 ∧
  ∃ a b, ADS_set.h int_hash round_end_table 7 = Ok a ∧
    ADS_set.g int_hash round_end_table 7 = Ok b ∧
    0 ≤ a < 2 ^ ADS_set.split_round round_end_table ∧
    (b = a ∨ b = a + 2 ^ ADS_set.split_round round_end_table) ∧
    a = b mod 2 ^ ADS_set.split_round round_end_table.
Proof.
  split; [by vm_compute|].
  apply (hash_next_round int_hash round_end_table 7). by vm_compute.
Defined.


Lemma reserve_extends_witness :
  Z.of_nat (length (ADS_set.table one_bucket_table)) =
    ADS_set.table_size one_bucket_table ∧
  ADS_set.table_size one_bucket_table ≤ 4 ∧
  ∃ s', ADS_set.reserve one_bucket_table 4 = Ok s' ∧
    ADS_set.table_size s' = 4 ∧ Z.of_nat (length (ADS_set.table s')) = 4 ∧
    ADS_set.split_round s' = ADS_set.split_round one_bucket_table ∧
    ADS_set.table_split_index s' =
      ADS_set.table_split_index one_bucket_table ∧
    ADS_set.table_items_size s' = ADS_set.table_items_size one_bucket_table ∧
    (∀ i b, ADS_set.table one_bucket_table !! i = Some b →
       ADS_set.table s' !! i = Some b) ∧
    (∀ i, (length (ADS_set.table one_bucket_table) ≤ i)%nat →
       Z.of_nat i < 4 → ADS_set.table s' !! i = Some Bucket.new) ∧
    ∀ key index,
      ADS_set.bucket_at int_hash one_bucket_table key = Ok index →
      0 ≤ index < ADS_set.table_size one_bucket_table →
      ADS_set.bucket_at int_hash s' key = Ok index ∧
      ADS_set.locate int_hash s' key =
        ADS_set.locate int_hash one_bucket_table key.
Proof.
  split; [by vm_compute|]. split; [by vm_compute|].
  apply (reserve_extends int_hash one_bucket_table 4); by vm_compute.
Defined.

Lemma reserve_shrink_faults_witness :
  Z.of_nat (length (ADS_set.table one_bucket_table)) =
    ADS_set.table_size one_bucket_table ∧
  0 ≤ 1 < ADS_set.table_size one_bucket_table ∧
  ADS_set.reserve one_bucket_table 1 = Fault OutOfBounds.
Proof.
  split; [by vm_compute|]. split; [by vm_compute|].
  apply (reserve_shrink_faults one_bucket_table 1); by vm_compute.
Defined.

Lemma empty_iff_no_keys_witness :
  0 < 5 ∧ (3 ≤ 3)%nat ∧
  Z.of_nat (length [0; 2; 4; 6; 8]) ≤ ADS_set.max_keys ∧
  ADS_set.from_list int_hash 5 3 [0; 2; 4; 6; 8] =
    Ok (one_bucket_table, 0%nat) ∧
  ADS_set.empty one_bucket_table = bool_decide ([0; 2; 4; 6; 8] = []).
Proof.
  split; [lia|]. split; [lia|]. split; [by vm_compute|].
  split; [by vm_compute|].
  apply (empty_iff_no_keys int_hash 5 ltac:(lia) 3 [0; 2; 4; 6; 8]
           one_bucket_table 0%nat); [lia | by vm_compute | by vm_compute].
Defined.

